(** * NASA outgassing scraper: a shallow embedding of [main.py]

    The development follows the order of the script: the data model of a
    Polars frame (cells, rows, [with_columns], [select]), the row shaping of
    [do_scrape], the pagination loop, duplicate removal, the
    [SpaceX_Classification] column, the clean-up of the [Application] column
    (title-casing, regular-expression substitutions, the residual
    dictionary), the column re-ordering, and [main] with its three writes.

    Modelling conventions.
    - A [pl.Decimal] value is an exact rational in canonical form ([Qc]), so
      that two cells are equal exactly when they denote the same number.
      The float literals [1.0], [3.0], [0.1] and [0.0] of the script are read
      as the exact decimals they spell.
    - A null is [None] (in typed positions) or [Null] (in a cell).
    - A frame has a header, the names of its columns, and rows; every row
      carries the column names.  An operation on a frame is given on one
      row: it is resolved on the header first, then computed on the rows,
      and the operations of a chain run one after the other on the whole
      frame.
    - What Polars does inside a call and the script cannot see (the scale a
      cast to [pl.Decimal] picks for a column, what [pl.concat] makes of
      the frames of several pages, whether a file can be written) is a
      field of [library].
    - Library failures (HTTP status, empty concat, missing column, bad cast)
      are values of [error], threaded by the monad [result].
    - Strings are restricted to ASCII: character classes ([\w], [\s], [\b],
      case folding, [is_alphanumeric]) are the ASCII ones. *)

From Stdlib Require Import QArith Qcanon Ascii String.
From stdpp Require Import base numbers option list sets strings.

Open Scope string_scope.
Open Scope list_scope.

(** ** Errors *)

Inductive error :=
  | HTTPError (page_num : nat)          (* [response.raise_for_status()] *)
  | ValueError                          (* [pl.concat] of an empty list *)
  | ColumnNotFoundError (name : string) (* a column an expression names is absent *)
  | SchemaError (name : string)         (* a column has an unexpected dtype *)
  | DuplicateError                      (* two columns of one name *)
  | InvalidOperationError               (* a strict cast met unparsable text *)
  | ShapeError                          (* rows or frames that do not fit together *)
  | OSError                             (* a file could not be written *)
  | OutOfFuel.                          (* the model's loop bound was reached *)

Inductive result (A : Type) :=
  | Ok (a : A)
  | Err (e : error).
Arguments Ok {A} a.
Arguments Err {A} e.

#[global] Instance result_ret : MRet result := λ A a, Ok a.
#[global] Instance result_bind : MBind result := λ A B k m,
  match m with
  | Ok a => k a
  | Err e => Err e
  end.

#[global] Instance result_fmap : FMap result := λ A B f m,
  match m with
  | Ok a => Ok (f a)
  | Err e => Err e
  end.

(** ** Cells, rows and frames *)

Inductive cell :=
  | Null
  | Str (s : string)
  | Dec (q : Qc)
  | U16 (n : N).

#[global] Instance cell_eq_dec : EqDecision cell.
Proof. solve_decision. Defined.

(** A row maps column names to cells and keeps the column order. *)
Definition row := list (string * cell).

(** [df.columns] and the rows of [df].  A frame has its columns also when
    it has no row. *)
Record DataFrame := { header : list string; rows : list row }.

Definition columns (r : row) : list string := r.*1.

Fixpoint get (name : string) (r : row) : option cell :=
  match r with
  | [] => None
  | (k, v) :: r' => if String.eqb k name then Some v else get name r'
  end.

(** [with_columns] replaces a column of the same name in place and appends
    a new one at the end. *)
Fixpoint set (name : string) (v : cell) (r : row) : row :=
  match r with
  | [] => [(name, v)]
  | (k, w) :: r' =>
      if String.eqb k name then (k, v) :: r' else (k, w) :: set name v r'
  end.

(** [pl.col(name)] *)
Definition col (name : string) (r : row) : result cell :=
  match get name r with
  | Some v => Ok v
  | None => Err (ColumnNotFoundError name)
  end.

Definition col_dec (name : string) (r : row) : result (option Qc) :=
  c ← col name r ;
  match c with
  | Null => Ok None
  | Dec q => Ok (Some q)
  | _ => Err (SchemaError name)
  end.

Definition col_str (name : string) (r : row) : result (option string) :=
  c ← col name r ;
  match c with
  | Null => Ok None
  | Str s => Ok (Some s)
  | _ => Err (SchemaError name)
  end.

Definition of_dec (o : option Qc) : cell := from_option Dec Null o.
Definition of_str (o : option string) : cell := from_option Str Null o.

(** Every expression of one [with_columns] call is evaluated on the frame
    the call receives; the results are written afterwards, in order. *)
Definition with_columns (es : list (string * (row → result cell))) (r : row)
  : result row :=
  vs ← mapM (λ e, v ← e.2 r; Ok (e.1, v)) es ;
  Ok (foldl (λ acc kv, set kv.1 kv.2 acc) r vs).

(** The row of nulls over the columns [names]: what an operation does to
    it is what the operation does to the schema. *)
Definition schema_row (names : list string) : row :=
  (λ name, (name, Null)) <$> names.

(** Every row of a frame has the columns of the frame, in their order. *)
Definition well_formed (df : DataFrame) : bool :=
  forallb (λ r, bool_decide (columns r = header df)) (rows df).

(** A frame operation that is given on one row.  The operation is first
    resolved on the schema, where a missing column or a duplicate name is
    reported also for a frame without rows; then the rows are computed,
    and the first row that fails gives the error.  A frame that is not
    well formed is no frame of Polars and is refused. *)
Definition each_row (f : row → result row) (df : DataFrame)
  : result DataFrame :=
  if well_formed df then
    h ← f (schema_row (header df));
    rs ← mapM f (rows df);
    Ok {| header := columns h; rows := rs |}
  else Err ShapeError.

(** ** Three-valued logic of Polars boolean expressions *)

Definition and3 (a b : option bool) : option bool :=
  match a, b with
  | Some false, _ | _, Some false => Some false
  | Some true, Some true => Some true
  | _, _ => None
  end.

Definition or3 (a b : option bool) : option bool :=
  match a, b with
  | Some true, _ | _, Some true => Some true
  | Some false, Some false => Some false
  | _, _ => None
  end.

Definition le3 (a b : option Qc) : option bool :=
  match a, b with
  | Some x, Some y => Some (bool_decide (x ≤ y)%Qc)
  | _, _ => None
  end.

Definition gt3 (a b : option Qc) : option bool :=
  match a, b with
  | Some x, Some y => Some (bool_decide (y < x)%Qc)
  | _, _ => None
  end.

(** [pl.when(c).then(v)] continued by [rest]: a null condition does not
    select the branch. *)
Definition when_then {A} (c : option bool) (v : A) (rest : A) : A :=
  match c with
  | Some true => v
  | _ => rest
  end.

Definition lit (q : Q) : option Qc := Some (Q2Qc q).

(** ** The derived column [RML_Pct] of [do_scrape] *)

Definition fill_null (a : option Qc) (v : Qc) : option Qc :=
  match a with
  | Some x => Some x
  | None => Some v
  end.

Definition sub3 (a b : option Qc) : option Qc :=
  match a, b with
  | Some x, Some y => Some (x - y)%Qc
  | _, _ => None
  end.

(** [pl.col("TML_Pct") - pl.col("WVR_Pct").fill_null(0.0)] *)
Definition RML_Pct (tml wvr : option Qc) : option Qc :=
  sub3 tml (fill_null wvr (Q2Qc 0)).

(** ** The classification column *)

Definition SpaceX_Classification (rml cvcm : option Qc) : string :=
  when_then (and3 (le3 rml (lit 1)) (le3 cvcm (lit (1 # 10))))
    "Pass"
  (when_then (and3 (le3 rml (lit 3)) (le3 cvcm (lit (1 # 10))))
    "Rationale Code A (up to 2 sq-in)"
  (when_then (or3 (gt3 rml (lit 3)) (gt3 cvcm (lit (1 # 10))))
    "Rationale Code B (up to 0.25 sq-in)"
    "Fail")).

Definition add_classification : row → result row :=
  with_columns
    [("SpaceX_Classification",
      λ r, rml ← col_dec "RML_Pct" r ;
           cvcm ← col_dec "CVCM_Pct" r ;
           Ok (Str (SpaceX_Classification rml cvcm)))].

(** ** Characters (ASCII) *)

Definition code (c : ascii) : N := N_of_ascii c.
Definition in_range (lo hi : N) (c : ascii) : bool :=
  (lo <=? code c)%N && (code c <=? hi)%N.

Definition is_upper : ascii → bool := in_range 65 90.
Definition is_lower : ascii → bool := in_range 97 122.
Definition is_digit : ascii → bool := in_range 48 57.
Definition is_alphanumeric (c : ascii) : bool :=
  is_upper c || is_lower c || is_digit c.
(** [\w] *)
Definition is_word (c : ascii) : bool :=
  is_alphanumeric c || Ascii.eqb c "_".
(** [\s], and the characters [strip_chars()] removes: tab, line feed,
    vertical tab, form feed, carriage return, space. *)
Definition is_space (c : ascii) : bool :=
  in_range 9 13 c || Ascii.eqb c " ".

Definition to_upper (c : ascii) : ascii :=
  if is_lower c then ascii_of_N (code c - 32) else c.
Definition to_lower (c : ascii) : ascii :=
  if is_upper c then ascii_of_N (code c + 32) else c.

(** ** Regular expressions: a backtracking matcher

    Alternatives are tried in the order of the pattern and repetitions are
    greedy, so the first match found is the leftmost-first match of the
    [regex] crate that Polars calls. *)

Inductive regex :=
  | Eps
  | Chr (p : ascii → bool)     (* one character of a class *)
  | Seq (r1 r2 : regex)
  | Alt (r1 r2 : regex)
  | Star (r : regex)           (* greedy [r*] *)
  | WordB.                     (* [\b] *)

Definition Opt (r : regex) : regex := Alt r Eps.
Definition Plus (r : regex) : regex := Seq r (Star r).

Definition is_word_opt (o : option ascii) : bool :=
  from_option is_word false o.

(** [exec r prev s k]: match [r] at the head of [s], where [prev] is the
    character just before; [k] receives the last character consumed and the
    rest of the input, and may refuse, which makes the matcher backtrack. *)
Fixpoint exec {R} (r : regex) (prev : option ascii) (s : list ascii)
    (k : option ascii → list ascii → option R) {struct r} : option R :=
  match r with
  | Eps => k prev s
  | Chr p =>
      match s with
      | c :: s' => if p c then k (Some c) s' else None
      | [] => None
      end
  | Seq r1 r2 => exec r1 prev s (λ prev' s', exec r2 prev' s' k)
  | Alt r1 r2 =>
      match exec r1 prev s k with
      | Some x => Some x
      | None => exec r2 prev s k
      end
  | Star r' =>
      (fix star (n : nat) (prev : option ascii) (s : list ascii) : option R :=
         match n with
         | O => k prev s
         | S n' =>
             match exec r' prev s
                     (λ prev' s', if (length s' <? length s)%nat
                                  then star n' prev' s' else None) with
             | Some x => Some x
             | None => k prev s
             end
         end) (length s) prev s
  | WordB =>
      if xorb (is_word_opt prev) (is_word_opt (head s)) then k prev s else None
  end.

(** The number of characters the match at the head of [s] consumes. *)
Definition match_at (r : regex) (prev : option ascii) (s : list ascii)
  : option nat :=
  exec r prev s (λ _ s', Some (length s - length s')%nat).

(** [str.replace_all]: scan left to right; [skip] counts the characters of
    the current match still to be dropped.  After an empty match the
    replacement is inserted and the scan moves one character on. *)
Fixpoint replace_from (r : regex) (rep : list ascii) (skip : nat)
    (prev : option ascii) (s : list ascii) : list ascii :=
  match s with
  | [] =>
      match skip, match_at r prev [] with
      | O, Some _ => rep
      | _, _ => []
      end
  | c :: s' =>
      match skip with
      | S n => replace_from r rep n (Some c) s'
      | O =>
          match match_at r prev s with
          | Some (S n) => rep ++ replace_from r rep n (Some c) s'
          | Some O => rep ++ c :: replace_from r rep 0 (Some c) s'
          | None => c :: replace_from r rep 0 (Some c) s'
          end
      end
  end.

Definition replace_all (r : regex) (rep : string) (s : list ascii)
  : list ascii :=
  replace_from r (list_ascii_of_string rep) 0 None s.

(** *** Building the script's patterns *)

Definition eq_cs (c : ascii) : ascii → bool := Ascii.eqb c.
(** Under [(?i)] a letter matches both of its cases. *)
Definition eq_ci (c : ascii) : ascii → bool :=
  λ d, Ascii.eqb (to_lower c) (to_lower d).
Definition one_of (cmp : ascii → ascii → bool) (cs : string) : ascii → bool :=
  λ d, existsb (λ c, cmp c d) (list_ascii_of_string cs).

Fixpoint word_with (cmp : ascii → ascii → bool) (w : list ascii) : regex :=
  match w with
  | [] => Eps
  | [c] => Chr (cmp c)
  | c :: w' => Seq (Chr (cmp c)) (word_with cmp w')
  end.

(** a literal, case-sensitively and under [(?i)] *)
Definition cs (w : string) : regex := word_with eq_cs (list_ascii_of_string w).
Definition ci (w : string) : regex := word_with eq_ci (list_ascii_of_string w).
(** [.]: any character but a line feed *)
Definition any : regex := Chr (λ c, negb (Ascii.eqb c "010")).

Fixpoint seqs (rs : list regex) : regex :=
  match rs with
  | [] => Eps
  | [r] => r
  | r :: rs' => Seq r (seqs rs')
  end.

(** [\b ... \b] *)
Definition whole (rs : list regex) : regex := seqs (WordB :: rs ++ [WordB]).

(** ** Cleaning the [Application] column *)

(** [str.to_titlecase()]: the first letter of each word in upper case, the
    rest in lower case; a word ends at a character that is not
    alphanumeric. *)
Fixpoint titlecase_from (next_is_upper : bool) (s : list ascii) : list ascii :=
  match s with
  | [] => []
  | c :: s' =>
      (if next_is_upper then to_upper c else to_lower c)
        :: titlecase_from (negb (is_alphanumeric c)) s'
  end.

Definition to_titlecase (s : list ascii) : list ascii := titlecase_from true s.

(** [str.strip_chars()] *)
Fixpoint strip_start (space : ascii → bool) (s : list ascii) : list ascii :=
  match s with
  | c :: s' => if space c then strip_start space s' else s
  | [] => []
  end.

Definition strip (space : ascii → bool) (s : list ascii) : list ascii :=
  reverse (strip_start space (reverse (strip_start space s))).

Definition strip_chars : list ascii → list ascii := strip is_space.

Definition acronyms : list string :=
  ["RF"; "RFI"; "EMC"; "EMI"; "ESD"; "UV"; "DVD"; "IC"; "ID"; "PC"; "PCB";
   "LED"; "LCD"; "TC"; "LRO"; "PCB"].

(** [(?i)\b{acronym}\b], replaced by the acronym itself *)
Definition acronym_rule (acronym : string) : regex * string :=
  (whole [ci acronym], acronym).

(** The chain of [str.replace_all] calls, in the order of the script; the
    pattern of the script is quoted after each rule. *)
Definition substitutions : list (regex * string) :=
  [ (cs "&", " and ");                             (* &, literal *)
    (whole [ci "Adh"], "Adhesive");                (* (?i)\b(Adh)\b *)
    (whole [ci "Tpe"], "Tape");                    (* (?i)\b(Tpe)\b *)
    (whole [ci "Anti"; Opt any; ci "static"], "Antistatic");
                                                   (* (?i)\b(Anti.?static)\b *)
    (whole [ci "Conf"], "Conformal");              (* (?i)\b(Conf)\b *)
    (whole [ci "Cond"], "Conductive");             (* (?i)\b(Cond)\b *)
    (whole [ci "Cpnd"], "Compound");               (* (?i)\b(Cpnd)\b *)
    (whole [ci "Cmpd"], "Compound");               (* (?i)\b(Cmpd)\b *)
    (whole [ci "Elec"], "Electrical");             (* (?i)\b(Elec)\b *)
    (whole [ci "electrical"; any; ci "conductive"], "Electrically-Conductive");
                                       (* (?i)\b(electrical.conductive)\b *)
    (whole [ci "blk"], "Black");                   (* (?i)\b(blk)\b *)
    (whole [ci "unk"], "Unknown");                 (* (?i)\b(unk)\b *)
    (whole [ci "vib"], "Vibration");               (* (?i)\b(vib)\b *)
    (whole [ci "opt"], "Optical");                 (* (?i)\b(opt)\b *)
    (whole [ci "ther"; Opt (ci "m")], "Thermal");  (* (?i)\b(therm?)\b *)
    (whole [ci "therm"; Star (Chr is_word); any; ci "conductive"],
       "Thermally-Conductive");        (* (?i)\b(therm\w*.conductive)\b *)
    (whole [ci "lube"], "Lubricant");              (* (?i)\b(lube)\b *)
    (seqs [WordB; Alt (ci "matl") (ci "mtl"); Opt (ci "s"); Opt (cs ".");
           WordB], "Material");                (* (?i)\b(matl|mtl)s?\.?\b *)
    (whole [ci "maerials"], "Materials");          (* (?i)\bmaerials\b *)
    (whole [ci "coatint"], "Coating");             (* (?i)\bcoatint\b *)
    (whole [ci "Wra"; Plus (ci "p"); ci "i"; Chr (one_of eq_ci "nm"); ci "g"],
       "Wrapping");                            (* (?i)\bWrap+i[nm]g\b *)
    (Plus (Chr is_space), " ");                    (* \s+ *)
    (seqs [cs "3"; Opt any; Chr (one_of eq_cs "Dd")], "3D");   (* 3.?[Dd] *)
    (whole [Chr (one_of eq_ci "0O"); Opt any; ci "ring"], "O-Ring");
                                                   (* (?i)\b[0O].?ring\b *)
    (whole [ci "and"], "and");                     (* (?i)\band\b *)
    (whole [ci "for"], "for");                     (* (?i)\bfor\b *)
    (cs ".", "");                                  (* ., literal *)
    (Plus (Chr is_space), " ") ].                  (* \s+ *)

Definition apply_rules (rules : list (regex * string)) (s : list ascii)
  : list ascii :=
  foldl (λ acc rule, replace_all rule.1 rule.2 acc) s rules.

(** The mapping of the final [.replace({...})]: a value equal to a key is
    replaced, any other value is kept. *)
Definition residual_corrections : list (string * string) :=
  [ ("2 Side Tape", "Tape, Double-Sided");
    ("2 Sided Tape", "Tape, Double-Sided");
    ("Tape 2 Side", "Tape, Double-Sided");
    ("Tape 2 Sided", "Tape, Double-Sided");
    ("Capicator", "Capacitor");
    ("Electrical Comp", "Electrical Component");
    ("Electrical Components", "Electrical Component");
    ("PC Board", "PCB") ].

Fixpoint replace (mapping : list (string * string)) (s : string) : string :=
  match mapping with
  | [] => s
  | (k, v) :: mapping' => if String.eqb k s then v else replace mapping' s
  end.

Definition chars (f : list ascii → list ascii) (s : string) : string :=
  string_of_list_ascii (f (list_ascii_of_string s)).

(** The three stages as functions of one string. *)
Definition titlecased (s : string) : string := chars to_titlecase s.
Definition with_acronyms (s : string) : string :=
  chars (apply_rules (acronym_rule <$> acronyms)) s.
Definition substituted (s : string) : string :=
  replace residual_corrections
    (chars (λ l, strip_chars (apply_rules substitutions l)) s).

(** What the script computes for [Application] from the scraped value. *)
Definition normalize (s : string) : string :=
  substituted (with_acronyms (titlecased s)).

(** The same on the frame.  In the first call both expressions read the
    [Application] column of the incoming frame. *)
Definition on_application (f : string → string) : row → result row :=
  with_columns
    [("Application", λ r, a ← col_str "Application" r; Ok (of_str (f <$> a)))].

Definition titlecase_application : row → result row :=
  with_columns
    [("Application",
      λ r, a ← col_str "Application" r; Ok (of_str (titlecased <$> a)));
     ("Raw_Application", col "Application")].

Definition clean_application (df : DataFrame) : result DataFrame :=
  df ← each_row titlecase_application df;
  df ← foldl (λ acc acronym,
                df ← acc;
                each_row
                  (on_application
                     (chars (replace_all (acronym_rule acronym).1 acronym)))
                  df)
             (Ok df) acronyms;
  each_row (on_application substituted) df.

(** ** Duplicate removal and ordered sets *)

(** [df.unique(maintain_order=True)]: rows are grouped on all columns in
    order of first appearance and the first row of each group is kept.
    [seen] holds the rows met so far. *)
Fixpoint unique_from `{EqDecision A} (seen : list A) (l : list A) : list A :=
  match l with
  | [] => []
  | x :: l' =>
      if bool_decide (x ∈ seen) then unique_from seen l'
      else x :: unique_from (x :: seen) l'
  end.

Definition unique `{EqDecision A} (l : list A) : list A := unique_from [] l.

Definition unique_rows (df : DataFrame) : DataFrame :=
  {| header := header df; rows := unique (rows df) |}.

(** [ordered_set.OrderedSet]: the items in order of first insertion. *)
Definition OrderedSet (items : list string) : list string := unique items.
(** [a - b] *)
Definition difference (a b : list string) : list string :=
  OrderedSet (filter (λ item, item ∉ b) a).
(** [a | b] *)
Definition union (a b : list string) : list string := OrderedSet (a ++ b).

(** ** Column order *)

Definition main_cols : list string :=
  OrderedSet
    ["Material"; "Application"; "TML_Pct"; "WVR_Pct"; "CVCM_Pct"; "RML_Pct";
     "Year"; "SpaceX_Classification"; "Data_Ref"; "Manufacturer"].

Definition other_cols (df_columns : list string) : list string :=
  difference (OrderedSet df_columns) main_cols.

Definition all_cols (df_columns : list string) : list string :=
  union main_cols (other_cols df_columns).

(** [df.select(names)]: every name must be a column of the frame. *)
Definition select (names : list string) (r : row) : result row :=
  mapM (λ name, v ← col name r; Ok (name, v)) names.

(** The column names of [df.select(all_cols)] for a frame whose columns
    are [df_columns]. *)
Definition reordered_columns (df_columns : list string)
  : result (list string) :=
  columns <$> select (all_cols df_columns) ((λ name, (name, Null)) <$> df_columns).

Definition reorder_columns (df : DataFrame) : result DataFrame :=
  each_row (select (all_cols (header df))) df.

(** ** The outside world *)

Record response := { status_code : nat; text : string }.

(** The library calls whose results the script only passes on. *)
Record library := {
  (* [requests.get(URL_TEMPLATE.format(page_num=page_num))] *)
  requests_get : nat → response;
  (* [pd.read_html(...)[0]], [pl.from_pandas] and the cast of every column
     to [pl.String]: a frame whose cells are [Str] or [Null] *)
  read_html : string → result DataFrame;
  (* the strict cast to [pl.Decimal] of one string of a column whose cells
     are given: Polars picks one scale for the whole column, so the number
     a string becomes may depend on the other cells; [None] when the cast
     fails *)
  to_decimal : list cell → string → option Qc;
  (* the strict casts of a string to [pl.Float64] and on to [pl.UInt16] *)
  to_year : string → option N;
  (* [pl.concat(df_list, how="vertical")] on a list that is not empty: the
     frames stacked, or the error raised when they do not fit *)
  concat_vertical : list DataFrame → result DataFrame;
  (* [df.write_csv], [df.write_parquet], [df.write_excel]: whether the
     file of that name can be written *)
  write_file : string → DataFrame → result ()
}.

(** What a run leaves behind: the pages requested, oldest first, and the
    files written, oldest first. *)
Record world := { requests : list nat; files : list (string * DataFrame) }.

Definition io (A : Type) : Type := world → result A * world.

#[global] Instance io_ret : MRet io := λ A a w, (Ok a, w).
#[global] Instance io_bind : MBind io := λ A B k m w,
  match m w with
  | (Ok a, w') => k a w'
  | (Err e, w') => (Err e, w')
  end.

Definition lift {A} (m : result A) : io A := λ w, (m, w).

Definition request (L : library) (page_num : nat) : io response := λ w,
  (Ok (requests_get L page_num),
   {| requests := requests w ++ [page_num]; files := files w |}).

(** A write that raises leaves no file. *)
Definition write (L : library) (name : string) (df : DataFrame) : io () := λ w,
  match write_file L name df with
  | Ok _ =>
      (Ok (), {| requests := requests w; files := files w ++ [(name, df)] |})
  | Err e => (Err e, w)
  end.

(** [response.raise_for_status()] *)
Definition raise_for_status (page_num : nat) (r : response) : result () :=
  if (400 <=? status_code r)%nat && (status_code r <? 600)%nat
  then Err (HTTPError page_num) else Ok ().

(** [needle in s] *)
Fixpoint contains (needle s : string) : bool :=
  String.prefix needle s ||
  match s with
  | EmptyString => false
  | String _ s' => contains needle s'
  end.

(** ** [do_scrape]: shaping one page *)

(** [.str.strip_chars().replace("", None)] on one cell *)
Definition strip_cell (c : cell) : cell :=
  match c with
  | Str s => let s' := chars strip_chars s in
             if String.eqb s' "" then Null else Str s'
  | _ => c
  end.

Definition no_duplicate_columns (r : row) : result row :=
  if bool_decide (NoDup (columns r)) then Ok r else Err DuplicateError.

(** [.rename({old: new, ...})]: every old name must be a column. *)
Definition rename_one (r : row) (names : string * string) : result row :=
  if bool_decide (names.1 ∈ columns r)
  then Ok (prod_map (λ k, if String.eqb k names.1 then names.2 else k) id <$> r)
  else Err (ColumnNotFoundError names.1).

Definition rename (mapping : list (string * string)) (r : row) : result row :=
  r ← foldl (λ acc names, r ← acc; rename_one r names) (Ok r) mapping;
  no_duplicate_columns r.

(** Python's [str.strip()] also removes the separators 28 to 31. *)
Definition is_py_space (c : ascii) : bool := is_space c || in_range 28 31 c.
Definition py_strip : list ascii → list ascii := strip is_py_space.

(** [.rename(lambda col: col.strip().replace(" ", "_"))] *)
Definition tidy_name (name : string) : string :=
  chars (λ l, (λ c, if Ascii.eqb c " " then "_"%char else c) <$> py_strip l)
        name.

Definition rename_all (f : string → string) (r : row) : result row :=
  no_duplicate_columns (prod_map f id <$> r).

(** The cells of a column, top down. *)
Definition column (name : string) (df : DataFrame) : list cell :=
  (λ r, default Null (get name r)) <$> rows df.

(** The cast of the cell [name] of one row, in a column whose cells are
    [cells]. *)
Definition cast_cell (L : library) (cells : list cell) (name : string)
    (r : row) : result row :=
  c ← col name r;
  match c with
  | Null => Ok r
  | Str s =>
      match to_decimal L cells s with
      | Some q => Ok (set name (Dec q) r)
      | None => Err InvalidOperationError
      end
  | Dec q => Ok r
  | U16 n => Err (SchemaError name)
  end.

(** [.cast({name: pl.Decimal})] on one column *)
Definition cast_decimal (L : library) (name : string) (df : DataFrame)
  : result DataFrame :=
  each_row (cast_cell L (column name df) name) df.

(** [pl.col("Year").cast(pl.Float64).cast(pl.UInt16)] *)
Definition cast_year (L : library) (r : row) : result cell :=
  c ← col "Year" r;
  match c with
  | Null => Ok Null
  | Str s =>
      match to_year L s with
      | Some n => Ok (U16 n)
      | None => Err InvalidOperationError
      end
  | _ => Err (SchemaError "Year")
  end.

(** The chain of frame operations of [do_scrape] (lines 29 to 56). *)
Definition shape (L : library) (df : DataFrame) : result DataFrame :=
  df ← each_row (λ r, Ok (prod_map id strip_cell <$> r)) df;
  df ← each_row
         (rename [("TML %", "TML_Pct"); ("WVR", "WVR_Pct");
                  ("CVCM", "CVCM_Pct"); ("Mfr.", "Manufacturer")]) df;
  df ← each_row (rename_all tidy_name) df;
  df ← cast_decimal L "TML_Pct" df;
  df ← cast_decimal L "WVR_Pct" df;
  df ← cast_decimal L "CVCM_Pct" df;
  each_row
    (with_columns
       [("Year", cast_year L);
        ("RML_Pct",
         λ r, tml ← col_dec "TML_Pct" r;
              wvr ← col_dec "WVR_Pct" r;
              Ok (of_dec (RML_Pct tml wvr)))]) df.

Definition do_scrape (L : library) (page_num : nat) : io (option DataFrame) :=
  response ← request L page_num;
  _ ← lift (raise_for_status page_num response);
  if negb (contains "<table" (text response)) then mret None
  else
    df ← lift (read_html L (text response));
    df ← lift (shape L df);
    mret (Some df).

(** ** [scrape_nasa_outgassing] *)

(** The [while True] loop; [fuel] bounds the number of pages fetched. *)
Fixpoint scrape_pages (L : library) (fuel : nat) (page_num : nat)
    (df_list : list DataFrame) : io (list DataFrame) :=
  match fuel with
  | O => lift (Err OutOfFuel)
  | S fuel' =>
      df ← do_scrape L page_num;
      match df with
      | None => mret df_list
      | Some df => scrape_pages L fuel' (S page_num) (df_list ++ [df])
      end
  end.

(** [pl.concat(df_list, how="vertical")] refuses an empty list; what it
    makes of the frames of a list that is not empty is left to Polars. *)
Definition pl_concat (L : library) (df_list : list DataFrame)
  : result DataFrame :=
  match df_list with
  | [] => Err ValueError
  | _ => concat_vertical L df_list
  end.

(** Lines 61 to 76: the loop and the concatenation. *)
Definition fetch_all (L : library) (fuel : nat) : io DataFrame :=
  df_list ← scrape_pages L fuel 1 [];
  lift (pl_concat L df_list).

Definition scrape_nasa_outgassing (L : library) (fuel : nat) : io DataFrame :=
  df ← fetch_all L fuel;
  let df := unique_rows df in
  df ← lift (each_row add_classification df);
  df ← lift (clean_application df);
  lift (reorder_columns df).

Definition main (L : library) (fuel : nat) : io () :=
  df ← scrape_nasa_outgassing L fuel;
  _ ← write L "output/nasa_outgassing.csv" df;
  _ ← write L "output/nasa_outgassing.pq" df;
  write L "output/nasa_outgassing.xlsx" df.

(** * Reference definitions

    The definitions below are not part of the script: they restate, in the
    words of the specification, what some of its steps are meant to
    compute, fix the sample data used by the examples, and introduce the
    notions in which the properties of the clean-up are stated. *)

(** The decision list in the words of the specification: a comparison
    with a null field is false. *)
Definition le_or_false (a : option Qc) (b : Q) : bool :=
  match a with
  | Some x => bool_decide (x ≤ Q2Qc b)%Qc
  | None => false
  end.

Definition gt_or_false (a : option Qc) (b : Q) : bool :=
  match a with
  | Some x => bool_decide (Q2Qc b < x)%Qc
  | None => false
  end.

Definition decision_list_spec (rml cvcm : option Qc) : string :=
  if le_or_false rml 1 && le_or_false cvcm (1 # 10) then "Pass"
  else if le_or_false rml 3 && le_or_false cvcm (1 # 10)
  then "Rationale Code A (up to 2 sq-in)"
  else if gt_or_false rml 3 || gt_or_false cvcm (1 # 10)
  then "Rationale Code B (up to 0.25 sq-in)"
  else "Fail".


(** Deduplication in the words of the specification: row [i] is dropped
    exactly when an identical row occurs among the [i] rows before it; the
    rows kept stay in their order. *)
Definition dedupe_spec `{EqDecision A} (l : list A) : list A :=
  omap id (imap (λ i x, if bool_decide (x ∈ take i l) then None else Some x) l).

(** The column order in the words of the specification: the priority
    columns that are present, then the other columns as they come. *)
Definition priority : list string :=
  ["Material"; "Application"; "TML_Pct"; "WVR_Pct"; "CVCM_Pct"; "RML_Pct";
   "Year"; "SpaceX_Classification"; "Data_Ref"; "Manufacturer"].

Definition column_order_spec (present : list string) : list string :=
  filter (λ c, c ∈ present) priority ++ filter (λ c, c ∉ priority) present.

(** What [do_scrape] returns for a page, apart from the request it logs. *)
Definition page (L : library) (page_num : nat) : result (option DataFrame) :=
  (do_scrape L page_num {| requests := []; files := [] |}).1.

(** The world after the pages [page_nums] have been requested in turn. *)
Definition requested (page_nums : list nat) (w : world) : world :=
  {| requests := requests w ++ page_nums; files := files w |}.

(** *** Sample data *)

Definition sample_table (material : string) : DataFrame :=
  {| header := ["Material"; "Application"; "TML %"; "WVR"; "CVCM"; "Year";
                "Data Ref"; "Mfr."];
     rows :=
       [ [("Material", Str material); ("Application", Str "elec. cond. adh");
          ("TML %", Str "1.50"); ("WVR", Str "0.25"); ("CVCM", Str "0.10");
          ("Year", Str "1985.0"); ("Data Ref", Str " GSC1 ");
          ("Mfr.", Str "ACM")];
         [("Material", Str "RTV 566"); ("Application", Str "pc board");
          ("TML %", Str "0.5"); ("WVR", Null); ("CVCM", Str "0.01");
          ("Year", Str "1990"); ("Data Ref", Str "GSC2");
          ("Mfr.", Str "GEC")] ] |}.

(** The numbers the sample strings denote.  In every column of the sample
    tables no string has more decimals than the first one, so that the
    scale of the column does not change what a string becomes. *)
Definition sample_decimals : list (string * Q) :=
  [("1.50", 3 # 2); ("0.25", 1 # 4); ("0.10", 1 # 10); ("0.5", 1 # 2);
   ("0.01", 1 # 100)].

Definition lookup_in {A} (table : list (string * A)) (s : string) : option A :=
  snd <$> find (λ kv, String.eqb kv.1 s) table.

(** Frames stacked as the sample libraries do it: the rows of the frames
    one after the other when all frames have the columns of the first, and
    an error when a frame has other columns. *)
Definition stack_rows (df_list : list DataFrame) : result DataFrame :=
  match df_list with
  | [] => Err ValueError
  | df :: _ =>
      if forallb (λ d, bool_decide (header d = header df)) df_list
      then Ok {| header := header df; rows := df_list ≫= rows |}
      else Err ShapeError
  end.

(** A library whose server answers [respond] and whose parser is
    [parse]; every write succeeds. *)
Definition library_of (respond : nat → response)
    (parse : string → result DataFrame) : library :=
  {| requests_get := respond;
     read_html := parse;
     to_decimal := λ _ s, Q2Qc <$> lookup_in sample_decimals s;
     to_year := lookup_in [("1985.0", 1985%N); ("1990", 1990%N)];
     concat_vertical := stack_rows;
     write_file := λ _ _, Ok () |}.

(** Every page with a table parses to [sample_table], labelled with the
    text of the page. *)
Definition sample_library (respond : nat → response) : library :=
  library_of respond (λ text, Ok (sample_table text)).

Definition table_page (page_num : nat) : response :=
  {| status_code := 200;
     text := "<html><table>page " ++ String (ascii_of_nat (48 + page_num)) "" |}.
Definition end_page : response :=
  {| status_code := 200; text := "<html>No results</html>" |}.
Definition error_page : response :=
  {| status_code := 503; text := "Service Unavailable" |}.

(** Tables on pages 1 to 3, none on page 4. *)
Definition three_pages : library :=
  sample_library (λ p, if (p <=? 3)%nat then table_page p else end_page).
(** Tables on pages 1 and 2, a server error on page 3. *)
Definition failing_third_page : library :=
  sample_library (λ p, if (p <=? 2)%nat then table_page p else error_page).
(** No table on page 1. *)
Definition no_pages : library := sample_library (λ _, end_page).

Definition empty_world : world := {| requests := []; files := [] |}.

Definition frames_of (L : library) (page_nums : list nat) : list DataFrame :=
  omap (λ p, match page L p with Ok (Some df) => Some df | _ => None end)
       page_nums.

Definition no_frame : DataFrame := {| header := []; rows := [] |}.

Definition sample_raw : DataFrame := sample_table "EPON 828".

Definition sample_shaped : DataFrame :=
  Eval vm_compute in
    match shape three_pages sample_raw with
    | Ok df => df
    | Err _ => no_frame
    end.

(** Every ["&"] spelled out as the word [and] between two spaces. *)
Definition ampersands_spelled_out (s : list ascii) : list ascii :=
  s ≫= λ c, if Ascii.eqb c "&" then list_ascii_of_string " and " else [c].

(** Inputs on which the clean-up is run twice: the examples of the
    specification, values in the style of the scraped data, and every
    word a rule writes. *)
Definition tested_inputs : list string :=
  ["2 SIDE TAPE"; "Thermal Cond Matl"; "PC Board"; "ADHESIVE"; "ADH";
   "COND ADH"; "ELEC COND ADH"; "THERM COND ADH"; "ANTI-STATIC BLK TPE";
   "CABLE TIE & WRAP"; "CONF COATINT"; "WRAPING MATLS."; "LUBE"; "UNK";
   "VIB DAMPING CPND"; "OPT CMPD"; "0-RING"; "O RING"; "3-D PRINTING";
   "POTTING FOR PCB AND LED"; "RF AND EMI GASKET"; "UV CURE ADH";
   "2 Sided Tape"; "Tape 2 Side"; "CAPICATOR"; "ELECTRICAL COMP";
   "ELECTRICAL COMPONENTS"; "MAERIALS"; "  foam   tape  "; ""]
  ++ acronyms ++ (snd <$> substitutions) ++ residual_corrections.*2.

(** White space occurs in [l] only as single spaces: every white-space
    character is [" "] and is not followed by another one. *)
Fixpoint single_spaced (l : list ascii) : bool :=
  match l with
  | [] => true
  | c :: l' =>
      (if is_space c
       then Ascii.eqb c " " && negb (from_option is_space false (head l'))
       else true)
      && single_spaced l'
  end.

(** A table on every page; on page 2 a percentage cell is no number. *)
Definition unparsable_second_page : library :=
  library_of table_page
    (λ body,
       Ok (if String.eqb body (text (table_page 2))
           then {| header := header (sample_table body);
                   rows :=
                     [ [("Material", Str "EPON 828"); ("Application", Str "adh");
                        ("TML %", Str "abc"); ("WVR", Null);
                        ("CVCM", Str "0.01"); ("Year", Str "1990");
                        ("Data Ref", Str "GSC3"); ("Mfr.", Str "SHL")] ] |}
           else sample_table body)).


Definition sample_classified : DataFrame :=
  Eval vm_compute in
    match each_row add_classification sample_shaped ≫= clean_application with
    | Ok df => df
    | Err _ => no_frame
    end.

Definition sample_final : DataFrame :=
  Eval vm_compute in
    match reorder_columns sample_classified with
    | Ok df => df
    | Err _ => no_frame
    end.

(** The frame that a run on [three_pages] returns. *)
Definition sample_output : DataFrame :=
  Eval vm_compute in
    match (scrape_nasa_outgassing three_pages 4 empty_world).1 with
    | Ok df => df
    | Err _ => no_frame
    end.

(** The header of a shaped column, from the header scraped: the four
    renamed headers, then the tidying of every name. *)
Definition header_spec (k : string) : string :=
  tidy_name
    (if String.eqb k "TML %" then "TML_Pct"
     else if String.eqb k "WVR" then "WVR_Pct"
     else if String.eqb k "CVCM" then "CVCM_Pct"
     else if String.eqb k "Mfr." then "Manufacturer"
     else k).

(** A scraped table without the [WVR] column, and without rows. *)
Definition sample_table_without_WVR : DataFrame :=
  {| header := ["Material"; "Application"; "TML %"; "CVCM"; "Year"; "Mfr."];
     rows := [] |}.

(** The steps of [shape] on one row; [tml], [wvr] and [cvcm] are the cells
    of the three columns when they are cast. *)
Definition shape_row (L : library) (tml wvr cvcm : list cell) (r : row)
  : result row :=
  r ← Ok (prod_map id strip_cell <$> r);
  r ← rename [("TML %", "TML_Pct"); ("WVR", "WVR_Pct"); ("CVCM", "CVCM_Pct");
              ("Mfr.", "Manufacturer")] r;
  r ← rename_all tidy_name r;
  r ← cast_cell L tml "TML_Pct" r;
  r ← cast_cell L wvr "WVR_Pct" r;
  r ← cast_cell L cvcm "CVCM_Pct" r;
  with_columns
    [("Year", cast_year L);
     ("RML_Pct",
      λ r, tml ← col_dec "TML_Pct" r;
           wvr ← col_dec "WVR_Pct" r;
           Ok (of_dec (RML_Pct tml wvr)))] r.

(** The clean-up of [Application] in two writes: the scraped cell goes to
    [Raw_Application], its normal form to [Application]. *)
Definition application_writes (r : row) : result row :=
  a ← col_str "Application" r;
  Ok (set "Application" (of_str (normalize <$> a))
        (set "Raw_Application" (of_str a) r)).

(** The string of [Application], null also where the cell is no string. *)
Definition application (r : row) : option string :=
  match col_str "Application" r with
  | Ok a => a
  | Err _ => None
  end.

(** [Application] rewritten by [g], the other columns left alone. *)
Definition rewritten (g : option string → option string) (r : row) : row :=
  set "Application" (of_str (g (application r))) r.

(** A frame on which the clean-up runs: it is well formed and
    [Application] is one of its columns and holds strings or nulls. *)
Definition has_application (df : DataFrame) : Prop :=
  well_formed df = true ∧ "Application" ∈ header df
  ∧ Forall (λ r, col_str "Application" r = Ok (application r)) (rows df).

(** The columns after [Raw_Application] has been written. *)
Definition with_raw (names : list string) : list string :=
  if bool_decide ("Raw_Application" ∈ names) then names
  else names ++ ["Raw_Application"].

(** *** Patterns as sets of words

    [matches r w]: the pattern [r] can match the text [w], whatever stands
    around it; [\b] matches the empty text. *)
Inductive matches : regex → list ascii → Prop :=
  | matches_Eps : matches Eps []
  | matches_Chr p c : p c = true → matches (Chr p) [c]
  | matches_Seq r1 r2 w1 w2 :
      matches r1 w1 → matches r2 w2 → matches (Seq r1 r2) (w1 ++ w2)
  | matches_Alt_l r1 r2 w : matches r1 w → matches (Alt r1 r2) w
  | matches_Alt_r r1 r2 w : matches r2 w → matches (Alt r1 r2) w
  | matches_Star_nil r : matches (Star r) []
  | matches_Star_cons r w1 w2 :
      matches r w1 → matches (Star r) w2 → matches (Star r) (w1 ++ w2)
  | matches_WordB : matches WordB [].

(** What the words of a pattern can look like: whether the empty text is
    one, the characters a word can start with, end with and contain, and
    the pairs of characters that can stand side by side in a word. *)
Fixpoint nullable (r : regex) : bool :=
  match r with
  | Eps | WordB | Star _ => true
  | Chr _ => false
  | Seq r1 r2 => nullable r1 && nullable r2
  | Alt r1 r2 => nullable r1 || nullable r2
  end.

Fixpoint first (r : regex) (c : ascii) : bool :=
  match r with
  | Eps | WordB => false
  | Chr p => p c
  | Seq r1 r2 => first r1 c || nullable r1 && first r2 c
  | Alt r1 r2 => first r1 c || first r2 c
  | Star r' => first r' c
  end.

Fixpoint final (r : regex) (c : ascii) : bool :=
  match r with
  | Eps | WordB => false
  | Chr p => p c
  | Seq r1 r2 => final r2 c || nullable r2 && final r1 c
  | Alt r1 r2 => final r1 c || final r2 c
  | Star r' => final r' c
  end.

Fixpoint uses (r : regex) (c : ascii) : bool :=
  match r with
  | Eps | WordB => false
  | Chr p => p c
  | Seq r1 r2 | Alt r1 r2 => uses r1 c || uses r2 c
  | Star r' => uses r' c
  end.

Fixpoint follows (r : regex) (a b : ascii) : bool :=
  match r with
  | Eps | WordB | Chr _ => false
  | Seq r1 r2 => follows r1 a b || follows r2 a b || final r1 a && first r2 b
  | Alt r1 r2 => follows r1 a b || follows r2 a b
  | Star r' => follows r' a b || final r' a && first r' b
  end.

(** Every two neighbours in [w] are related by [Q]. *)
Fixpoint neighbours (Q : ascii → ascii → bool) (w : list ascii) : bool :=
  match w with
  | a :: (b :: _) as w' => Q a b && neighbours Q w'
  | _ => true
  end.

(** *** The word [and]

    A pattern that cannot touch the word [and] where it stands between two
    spaces: no match is empty, starts at a space or at [n] or [d], ends
    with a space, or runs over a space into an [a]. *)
Definition token_safe (r : regex) : bool :=
  negb (nullable r) && negb (first r " ") && negb (first r "n")
  && negb (first r "d") && negb (final r " ") && negb (follows r " " "a").

(** At the [a] of such a word the rule finds no match, or it matches the
    word and writes it back. *)
Definition keeps_and (r : regex) (rep : list ascii) : Prop :=
  ∀ s,
    match_at r (Some " "%char) (list_ascii_of_string "and " ++ s) = None
    ∨ (match_at r (Some " "%char) (list_ascii_of_string "and " ++ s) = Some 3%nat
       ∧ rep = list_ascii_of_string "and").

(** [spelled n s]: the text [s] has [n] times, one after the other, the
    word [and] in lower case with a space before it and a space after
    it. *)
Inductive spelled : nat → list ascii → Prop :=
  | spelled_O s : spelled 0 s
  | spelled_S n p q :
      spelled n (" "%char :: q) →
      spelled (S n) (p ++ list_ascii_of_string " and" ++ " "%char :: q).

(** The number of times [c] occurs. *)
Definition occurrences (c : ascii) (l : list ascii) : nat :=
  length (filter (λ d, d = c) l).

(** The text starts with the word [and] in lower case, followed by a
    space or by the end of the text. *)
Definition is_and_word (l : list ascii) : bool :=
  match l with
  | c1 :: c2 :: c3 :: t =>
      Ascii.eqb c1 "a" && Ascii.eqb c2 "n" && Ascii.eqb c3 "d"
      && match t with
         | [] => true
         | c :: _ => Ascii.eqb c " "
         end
  | _ => false
  end.

(** The number of words [and] in lower case that stand between spaces or
    ends of the text; [start] tells whether a word can start at the head of
    the text. *)
Fixpoint and_count (start : bool) (l : list ascii) : nat :=
  match l with
  | [] => 0
  | c :: l' =>
      (if start && is_and_word l then 1 else 0)
      + and_count (Ascii.eqb c " ") l'
  end.

Definition and_words (s : string) : nat :=
  and_count true (list_ascii_of_string s).

(** * Properties *)

(** ** Rows: reading a column after writing *)

Lemma get_set_eq name v r : get name (set name v r) = Some v.
Proof.
  induction r as [|[k w] r IH]; simpl.
  - by rewrite String.eqb_refl.
  - destruct (String.eqb k name) eqn:E; simpl; rewrite E; done.
Qed.

Lemma get_set_ne name name' v r :
  name ≠ name' → get name' (set name v r) = get name' r.
Proof.
  intros Hne. induction r as [|[k w] r IH]; simpl.
  - by apply String.eqb_neq in Hne as ->.
  - destruct (String.eqb k name) eqn:E; simpl.
    + apply String.eqb_eq in E as ->.
      by apply String.eqb_neq in Hne as ->.
    + by rewrite IH.
Qed.

Lemma bind_Ok {A B} (m : result A) (k : A → result B) b :
  m ≫= k = Ok b → ∃ a, m = Ok a ∧ k a = Ok b.
Proof. destruct m; simpl; [eauto | done]. Qed.

(** One column written by [with_columns]. *)
Lemma with_columns_1 name e r r' :
  with_columns [(name, e)] r = Ok r' →
  ∃ v, e r = Ok v ∧ r' = set name v r.
Proof.
  unfold with_columns; simpl. destruct (e r) as [v|]; simpl; [|done].
  intros [= <-]. eauto.
Qed.

Lemma with_columns_2 n1 e1 n2 e2 r r' :
  with_columns [(n1, e1); (n2, e2)] r = Ok r' →
  ∃ v1 v2, e1 r = Ok v1 ∧ e2 r = Ok v2 ∧ r' = set n2 v2 (set n1 v1 r).
Proof.
  unfold with_columns; simpl.
  destruct (e1 r) as [v1|]; simpl; [|done].
  destruct (e2 r) as [v2|]; simpl; [|done].
  intros [= <-]. eauto.
Qed.

Lemma set_set name v w r : set name v (set name w r) = set name v r.
Proof.
  induction r as [|[k u] r IH]; simpl.
  - by rewrite String.eqb_refl.
  - destruct (String.eqb k name) eqn:E; simpl; rewrite E; [done|]. by rewrite IH.
Qed.

Lemma set_id name v r : get name r = Some v → set name v r = r.
Proof.
  induction r as [|[k u] r IH]; simpl; [done|].
  destruct (String.eqb k name); [by intros [= ->]|]. intros ?. by rewrite IH.
Qed.

Lemma get_Some_column name v r : get name r = Some v → name ∈ columns r.
Proof.
  unfold columns. induction r as [|[k u] r IH]; simpl; [done|].
  destruct (String.eqb k name) eqn:E.
  - apply String.eqb_eq in E as ->. left.
  - intros ?. right. by apply IH.
Qed.

Lemma get_column name r : name ∈ columns r → is_Some (get name r).
Proof.
  destruct (get name r) eqn:E; [done|]. intros Hin. exfalso. revert Hin E.
  unfold columns. induction r as [|[k u] r IH]; simpl.
  - by intros ?%elem_of_nil.
  - destruct (String.eqb k name) eqn:Ek; [done|].
    apply String.eqb_neq in Ek. intros [?|?]%elem_of_cons; [done|]. by apply IH.
Qed.

(** Writing an existing column, then another, is writing the other on
    the frame as it was, when the first is written again afterwards. *)
Lemma set_set_under name name' v v0 w r :
  name ≠ name' → name ∈ columns r →
  set name v (set name' w (set name v0 r)) = set name v (set name' w r).
Proof.
  intros Hne. unfold columns. induction r as [|[k u] r IH]; simpl.
  - by intros ?%elem_of_nil.
  - intros Hin. destruct (String.eqb k name) eqn:E; simpl.
    + apply String.eqb_eq in E as ->.
      apply String.eqb_neq in Hne as Hne'. rewrite Hne'. simpl.
      by rewrite String.eqb_refl.
    + apply String.eqb_neq in E.
      apply elem_of_cons in Hin as [?|Hin]; [done|].
      destruct (String.eqb k name') eqn:E'; simpl.
      * apply String.eqb_neq in E as ->. by rewrite set_set.
      * apply String.eqb_neq in E as ->. by rewrite IH.
Qed.

Lemma columns_set name v r :
  columns (set name v r)
  = if bool_decide (name ∈ columns r) then columns r else columns r ++ [name].
Proof.
  unfold columns. induction r as [|[k u] r IH]; cbn [set fmap list_fmap fst].
  - by rewrite bool_decide_eq_false_2 by apply not_elem_of_nil.
  - destruct (String.eqb k name) eqn:E; cbn [fmap list_fmap fst].
    + apply String.eqb_eq in E as ->.
      by rewrite bool_decide_eq_true_2 by left.
    + apply String.eqb_neq in E. rewrite IH. case_bool_decide as Hin.
      * by rewrite bool_decide_eq_true_2 by by right.
      * rewrite bool_decide_eq_false_2; [done|].
        rewrite not_elem_of_cons. split; [congruence|done].
Qed.

Lemma columns_set_present name v r :
  name ∈ columns r → columns (set name v r) = columns r.
Proof. intros. by rewrite columns_set, bool_decide_eq_true_2. Qed.

Lemma values_set (P : cell → Prop) name v r :
  P v → Forall P r.*2 → Forall P (set name v r).*2.
Proof.
  intros Hv. induction r as [|[k u] r IH]; simpl.
  - intros _. by constructor.
  - intros [Hu Hr]%Forall_cons. destruct (String.eqb k name); simpl.
    + by constructor.
    + constructor; [done|]. by apply IH.
Qed.

Lemma get_elem_of name v r : get name r = Some v → (name, v) ∈ r.
Proof.
  induction r as [|[k u] r IH]; simpl; [done|].
  destruct (String.eqb k name) eqn:E.
  - apply String.eqb_eq in E as ->. intros [= ->]. left.
  - intros ?. right. by apply IH.
Qed.

(** ** Frame operations given on one row *)

Lemma mapM_Ok_Forall2 {A B} (f : A → result B) l l' :
  mapM f l = Ok l' → Forall2 (λ x y, f x = Ok y) l l'.
Proof.
  revert l'. induction l as [|x l IH]; intros l'.
  - intros [= <-]. constructor.
  - cbn [mapM]. intros (y & Hy & (l1 & Hl1 & [= <-])%bind_Ok)%bind_Ok.
    constructor; [done|]. by apply IH.
Qed.

Lemma mapM_Ok_fmap {A B} (f : A → result B) (g : A → B) l :
  Forall (λ x, f x = Ok (g x)) l → mapM f l = Ok (g <$> l).
Proof.
  induction 1 as [|x l Hx _ IH]; [done|]. cbn [mapM]. by rewrite Hx, IH.
Qed.

Lemma Forall2_Forall_r_ex {A B} (R : A → B → Prop) l k :
  Forall2 R l k → Forall (λ y, ∃ x, x ∈ l ∧ R x y) k.
Proof.
  induction 1 as [|x y l k Hxy _ IH]; constructor.
  - exists x. split; [left|done].
  - eapply Forall_impl; [exact IH|]. intros y' (x' & Hx' & Hy').
    exists x'. split; [by right|done].
Qed.

Lemma well_formed_Forall df :
  well_formed df = true ↔ Forall (λ r, columns r = header df) (rows df).
Proof.
  unfold well_formed. rewrite <- Is_true_true, forallb_True.
  apply Forall_iff. intros r. by rewrite bool_decide_spec.
Qed.

Lemma each_row_inv f df df' :
  each_row f df = Ok df' →
  Forall (λ r, columns r = header df) (rows df)
  ∧ (∃ h, f (schema_row (header df)) = Ok h ∧ header df' = columns h)
  ∧ Forall2 (λ r r', f r = Ok r') (rows df) (rows df').
Proof.
  unfold each_row. destruct (well_formed df) eqn:Hwf; [|done].
  intros (h & Hh & (rs & Hrs & [= <-])%bind_Ok)%bind_Ok.
  split_and!; [by apply well_formed_Forall | by exists h|].
  by apply mapM_Ok_Forall2.
Qed.

Lemma each_row_Ok f (g : row → row) df h :
  well_formed df = true →
  f (schema_row (header df)) = Ok h →
  Forall (λ r, f r = Ok (g r)) (rows df) →
  each_row f df = Ok {| header := columns h; rows := g <$> rows df |}.
Proof.
  intros Hwf Hh Hrows. unfold each_row.
  by rewrite Hwf, Hh, (mapM_Ok_fmap f g).
Qed.

Lemma each_row_not_well_formed f df :
  well_formed df = false → each_row f df = Err ShapeError.
Proof. unfold each_row. by intros ->. Qed.

Lemma each_row_schema_Err f df e :
  well_formed df = true → f (schema_row (header df)) = Err e →
  each_row f df = Err e.
Proof. unfold each_row. by intros -> ->. Qed.

Lemma each_row_rows_Err f df h e :
  well_formed df = true → f (schema_row (header df)) = Ok h →
  mapM f (rows df) = Err e → each_row f df = Err e.
Proof. unfold each_row. by intros -> -> ->. Qed.

Lemma columns_schema_row names : columns (schema_row names) = names.
Proof.
  unfold columns, schema_row. by rewrite <- list_fmap_compose, list_fmap_id.
Qed.

(** ** The classifier *)

Lemma classification_refines rml cvcm :
  SpaceX_Classification rml cvcm = decision_list_spec rml cvcm.
Proof.
  unfold SpaceX_Classification, decision_list_spec, le_or_false, gt_or_false,
    lit, le3, gt3.
  destruct rml as [x|], cvcm as [y|]; simpl;
    repeat case_bool_decide; simpl; try reflexivity.
Qed.

(** C1. The classification is a total function of [(RML_Pct, CVCM_Pct)]
    that agrees everywhere with the first-match-wins decision list in which
    a comparison with null does not match; two nulls give [Fail], a null
    [RML_Pct] gives Code B exactly when [CVCM_Pct > 0.1], and the three
    worked examples come out as [Pass], Code A and Code B. *)
Theorem classifier_decision_list :
  (∀ rml cvcm, SpaceX_Classification rml cvcm = decision_list_spec rml cvcm)
  ∧ SpaceX_Classification None None = "Fail"
  ∧ (∀ c, SpaceX_Classification None (Some c) =
          if bool_decide (Q2Qc (1 # 10) < c)%Qc
          then "Rationale Code B (up to 0.25 sq-in)" else "Fail")
  ∧ SpaceX_Classification (Some (Q2Qc 1)) (Some (Q2Qc (1 # 10))) = "Pass"
  ∧ SpaceX_Classification (Some (Q2Qc (5 # 2))) (Some (Q2Qc (1 # 10)))
    = "Rationale Code A (up to 2 sq-in)"
  ∧ SpaceX_Classification (Some (Q2Qc 5)) (Some (Q2Qc (5 # 100)))
    = "Rationale Code B (up to 0.25 sq-in)".
Proof.
  split_and!; try (vm_compute; reflexivity).
  - apply classification_refines.
  - intros c. rewrite classification_refines.
    unfold decision_list_spec, le_or_false, gt_or_false; simpl.
    by case_bool_decide.
Qed.

(** ** The derived column [RML_Pct] *)

Lemma RML_Pct_cases tml wvr :
  of_dec (RML_Pct tml wvr) =
  match tml, wvr with
  | Some t, Some w => Dec (t - w)
  | Some t, None => Dec t
  | None, _ => Null
  end.
Proof.
  destruct tml as [t|], wvr as [w|]; simpl; try reflexivity.
  f_equal. ring.
Qed.

Lemma col_dec_set_ne name name' v r :
  name ≠ name' → col_dec name' (set name v r) = col_dec name' r.
Proof. intros. unfold col_dec, col. by rewrite get_set_ne. Qed.

(** C3. In every row of a frame that [do_scrape] has shaped, [RML_Pct]
    is [TML_Pct - WVR_Pct] when both are present, [TML_Pct] when [WVR_Pct]
    is null, and null when [TML_Pct] is null. *)
Theorem shaped_row_RML L df df' :
  shape L df = Ok df' →
  Forall
    (λ r', ∃ tml wvr,
       col_dec "TML_Pct" r' = Ok tml ∧ col_dec "WVR_Pct" r' = Ok wvr ∧
       get "RML_Pct" r' =
         Some match tml, wvr with
              | Some t, Some w => Dec (t - w)
              | Some t, None => Dec t
              | None, _ => Null
              end)
    (rows df').
Proof.
  unfold shape. intros H.
  do 6 (apply bind_Ok in H as (? & _ & H)).
  apply each_row_inv in H as (_ & _ & H).
  eapply Forall2_Forall_r_ex, Forall_impl in H; [exact H|].
  intros r' (r & _ & Hr). cbn beta in Hr.
  apply with_columns_2 in Hr as (y & v & _ & Hv & ->).
  apply bind_Ok in Hv as (tml & Html & Hv).
  apply bind_Ok in Hv as (wvr & Hwvr & [= <-]).
  exists tml, wvr. rewrite !col_dec_set_ne by done.
  split_and!; [done..|].
  by rewrite get_set_eq, RML_Pct_cases.
Qed.

Lemma shaped_row_RML_witness :
  Forall
    (λ r', ∃ tml wvr,
       col_dec "TML_Pct" r' = Ok tml ∧ col_dec "WVR_Pct" r' = Ok wvr ∧
       get "RML_Pct" r' =
         Some match tml, wvr with
              | Some t, Some w => Dec (t - w)
              | Some t, None => Dec t
              | None, _ => Null
              end)
    (rows sample_shaped).
Proof.
  apply (shaped_row_RML three_pages sample_raw sample_shaped).
  vm_compute. reflexivity.
Defined.

(** ** Duplicate removal *)

Section unique.
Context `{EqDecision A}.
Implicit Types (l seen : list A).

Lemma unique_from_first_occurrences seen pre l :
  (∀ y, y ∈ seen ↔ y ∈ pre) →
  unique_from seen l =
  omap id (imap (λ i x, if bool_decide (x ∈ pre ++ take i l)
                        then None else Some x) l).
Proof.
  revert seen pre. induction l as [|x l IH]; intros seen pre Hseen; [done|].
  cbn [unique_from imap omap take]. rewrite app_nil_r.
  rewrite (bool_decide_ext _ _ (Hseen x)).
  assert (Hext : imap ((λ i y, if bool_decide (y ∈ pre ++ take i (x :: l))
                               then None else Some y) ∘ S) l
               = imap (λ i y, if bool_decide (y ∈ (pre ++ [x]) ++ take i l)
                              then None else Some y) l).
  { apply imap_ext. intros i y _. simpl. by rewrite <- (assoc_L (++)). }
  rewrite Hext. case_bool_decide as Hx; simpl.
  - apply IH. intros y. rewrite elem_of_app, list_elem_of_singleton, Hseen.
    split; [tauto | intros [?| ->]; done].
  - f_equal. apply IH. intros y.
    rewrite elem_of_cons, elem_of_app, list_elem_of_singleton, Hseen. tauto.
Qed.

Lemma unique_from_sublist seen l : unique_from seen l `sublist_of` l.
Proof.
  revert seen. induction l as [|x l IH]; intros seen; simpl; [done|].
  case_bool_decide; [apply sublist_cons | apply sublist_skip]; apply IH.
Qed.

Lemma elem_of_unique_from seen l x :
  x ∈ unique_from seen l ↔ x ∈ l ∧ x ∉ seen.
Proof.
  revert seen. induction l as [|y l IH]; intros seen; simpl.
  - rewrite elem_of_nil. tauto.
  - case_bool_decide as Hy; rewrite ?elem_of_cons, IH, ?elem_of_cons.
    + split; [tauto|]. intros [[->|?] ?]; tauto.
    + destruct (decide (x = y)) as [->|]; tauto.
Qed.

Lemma NoDup_unique_from seen l : NoDup (unique_from seen l).
Proof.
  revert seen. induction l as [|y l IH]; intros seen; simpl.
  - constructor.
  - case_bool_decide; [apply IH|]. constructor; [|apply IH].
    rewrite elem_of_unique_from, elem_of_cons. tauto.
Qed.

(** C7. [unique] drops exactly the rows identical to an earlier row: it
    is the list of first occurrences, a subsequence of its input without
    repetition and with the same members; [[a; b; a]] becomes [[a; b]]. *)
Theorem unique_keeps_first_occurrences l :
  unique l = dedupe_spec l
  ∧ unique l `sublist_of` l
  ∧ NoDup (unique l)
  ∧ (∀ x, x ∈ unique l ↔ x ∈ l)
  ∧ (∀ a b : A, unique [a; b; a] = if decide (a = b) then [a] else [a; b]).
Proof.
  split_and!.
  - by apply (unique_from_first_occurrences [] []).
  - apply unique_from_sublist.
  - apply NoDup_unique_from.
  - intros x. unfold unique. rewrite elem_of_unique_from, elem_of_nil. tauto.
  - intros a b. unfold unique; cbn [unique_from].
    rewrite (bool_decide_eq_false_2 (a ∈ [])) by set_solver.
    destruct (decide (a = b)) as [->|Hab].
    + by rewrite !(bool_decide_eq_true_2 (b ∈ [b])) by set_solver.
    + rewrite (bool_decide_eq_false_2 (b ∈ [a]))
        by (rewrite list_elem_of_singleton; congruence).
      by rewrite (bool_decide_eq_true_2 (a ∈ [b; a])) by set_solver.
Qed.
End unique.

(** ** Column order *)

Lemma unique_from_NoDup `{EqDecision A} (seen l : list A) :
  NoDup l → (∀ x, x ∈ l → x ∉ seen) → unique_from seen l = l.
Proof.
  intros Hl. revert seen. induction Hl as [|x l Hx Hl IH]; intros seen Hs; [done|].
  simpl. rewrite bool_decide_eq_false_2 by (apply Hs; left).
  f_equal. apply IH. intros y Hy. rewrite not_elem_of_cons. split.
  - intros ->. done.
  - apply Hs. by right.
Qed.

Lemma unique_NoDup `{EqDecision A} (l : list A) : NoDup l → unique l = l.
Proof. intros. apply unique_from_NoDup; [done|]. intros x _. apply not_elem_of_nil. Qed.

Lemma main_cols_priority : main_cols = priority.
Proof. reflexivity. Qed.

Lemma NoDup_priority : NoDup priority.
Proof. apply (bool_decide_unpack (NoDup priority)). by vm_compute. Qed.

Lemma all_cols_NoDup df_columns :
  NoDup df_columns →
  all_cols df_columns = priority ++ filter (λ c, c ∉ priority) df_columns.
Proof.
  intros Hnd. unfold all_cols, union, other_cols, difference, OrderedSet.
  rewrite main_cols_priority, (unique_NoDup df_columns) by done.
  set (rest := filter (λ c, c ∉ priority) df_columns).
  assert (NoDup rest) by by apply NoDup_filter.
  rewrite (unique_NoDup rest) by done.
  apply unique_NoDup, NoDup_app. split_and!; [| |done].
  - apply NoDup_priority.
  - intros c Hc. unfold rest. rewrite list_elem_of_filter. tauto.
Qed.

Lemma get_null_row name (names : list string) :
  name ∈ names → get name ((λ n, (n, Null)) <$> names) = Some Null.
Proof.
  induction names as [|n names IH]; simpl.
  - by intros ?%elem_of_nil.
  - destruct (String.eqb n name) eqn:E; [done|].
    apply String.eqb_neq in E. intros [->|?]%elem_of_cons; [done|]. by apply IH.
Qed.

Lemma get_None_not_column name r : name ∉ columns r → get name r = None.
Proof.
  unfold columns. induction r as [|[k v] r IH]; simpl; [done|].
  rewrite not_elem_of_cons. intros [Hne ?].
  destruct (String.eqb k name) eqn:E; [|by apply IH].
  apply String.eqb_eq in E. congruence.
Qed.

Lemma col_null_row name (names : list string) :
  name ∈ names → col name ((λ n, (n, Null)) <$> names) = Ok Null.
Proof. intros. unfold col. by rewrite get_null_row. Qed.

Lemma col_not_column name r :
  name ∉ columns r → col name r = Err (ColumnNotFoundError name).
Proof. intros. unfold col. by rewrite get_None_not_column. Qed.

Lemma select_null_row (names present : list string) :
  names ⊆ present →
  columns <$> select names ((λ n, (n, Null)) <$> present) = Ok names.
Proof.
  unfold select. induction names as [|n names IH]; intros Hsub; [done|].
  cbn [mapM]. rewrite (col_null_row n) by (apply Hsub; left).
  simpl. specialize (IH (λ c Hc, Hsub c (list_elem_of_further c _ _ Hc))).
  destruct (mapM _ names) as [r'|]; simpl in *; [|done].
  injection IH as ->. done.
Qed.

(** A priority column that is absent makes [select] fail. *)
Lemma reordered_columns_missing df_columns :
  NoDup df_columns → ¬ (priority ⊆ df_columns) →
  ∃ c, c ∈ priority ∧ (c ∉ df_columns) ∧
       reordered_columns df_columns = Err (ColumnNotFoundError c).
Proof.
  intros Hnd Hsub. unfold reordered_columns. rewrite all_cols_NoDup by done.
  generalize (filter (λ c, c ∉ priority) df_columns) as rest.
  revert Hsub. generalize priority as prio.
  induction prio as [|p prio IH]; intros Hsub rest.
  - destruct Hsub. intros c Hc. by apply elem_of_nil in Hc.
  - unfold select. cbn [app mapM].
    destruct (decide (p ∈ df_columns)) as [Hp|Hp].
    + rewrite (col_null_row p) by done. simpl.
      destruct (IH) with (rest := rest) as (c & ? & ? & Hc).
      { intros Hs. apply Hsub. intros x [->|?]%elem_of_cons; [done|by apply Hs]. }
      exists c. split_and!; [by right | done |].
      unfold select in Hc. destruct (mapM _ (prio ++ rest)); simpl in *; done.
    + exists p. split_and!; [by left | done |].
      rewrite (col_not_column p); [done|].
      unfold columns. by rewrite <- list_fmap_compose, list_fmap_id.
Qed.


(** C8 (amended). When the frame has all ten priority columns, the final
    order is the priority sequence followed by the other columns in their
    original relative order, which is the order the specification
    describes, and no name occurs twice. *)
Theorem column_order_with_all_priority_columns (df_columns : list string) :
  NoDup df_columns → priority ⊆ df_columns →
  reordered_columns df_columns = Ok (column_order_spec df_columns)
  ∧ column_order_spec df_columns
    = priority ++ filter (λ c, c ∉ priority) df_columns
  ∧ NoDup (column_order_spec df_columns).
Proof.
  intros Hnd Hsub.
  assert (Hspec : column_order_spec df_columns
                  = priority ++ filter (λ c, c ∉ priority) df_columns).
  { unfold column_order_spec. f_equal.
    generalize priority, Hsub. clear. intros prio Hsub.
    induction prio as [|p prio IH]; [done|].
    rewrite filter_cons_True by (apply Hsub; left).
    f_equal. apply IH. intros c Hc. apply Hsub. by right. }
  assert (Hall : all_cols df_columns = column_order_spec df_columns)
    by by rewrite Hspec, all_cols_NoDup.
  split_and!; [|done|].
  - unfold reordered_columns. rewrite Hall. apply select_null_row.
    rewrite Hspec. intros c [?|[_ ?]%list_elem_of_filter]%elem_of_app; auto.
  - rewrite Hspec. apply NoDup_app. split_and!.
    + apply NoDup_priority.
    + intros c Hc. rewrite list_elem_of_filter. tauto.
    + by apply NoDup_filter.
Qed.

(** The specification's own example lacks priority columns: the script
    asks [select] for all ten and the call fails. *)
Lemma column_order_absent_priority_column :
  let present := ["Manufacturer"; "Year"; "Extra1"; "Material"] in
  column_order_spec present = ["Material"; "Year"; "Manufacturer"; "Extra1"]
  ∧ reordered_columns present = Err (ColumnNotFoundError "Application")
  ∧ reordered_columns present ≠ Ok (column_order_spec present).
Proof. split_and!; [by vm_compute..|]. vm_compute. discriminate. Qed.

Lemma column_order_with_all_priority_columns_witness :
  let present := "Sample_Wt" :: "Cure" :: priority ++ ["Raw_Application"] in
  reordered_columns present = Ok (priority ++ ["Sample_Wt"; "Cure"; "Raw_Application"]).
Proof.
  intros present.
  refine (proj1 (column_order_with_all_priority_columns present _ _)).
  - apply (bool_decide_unpack (NoDup present)). vm_compute. exact I.
  - apply (bool_decide_unpack (priority ⊆ present)). vm_compute. exact I.
Defined.

(** ** Pagination *)

Lemma do_scrape_run L page_num w :
  do_scrape L page_num w = (page L page_num, requested [page_num] w).
Proof.
  unfold page, do_scrape, requested, request, lift, mbind, io_bind; simpl.
  destruct (raise_for_status _ _); [|done].
  destruct (negb _); [done|].
  destruct (read_html _ _); [|done].
  simpl. destruct (shape _ _); done.
Qed.

Lemma requested_app ps qs w :
  requested qs (requested ps w) = requested (ps ++ qs) w.
Proof. unfold requested; simpl. by rewrite (assoc_L (++)). Qed.

Lemma requested_nil w : requested [] w = w.
Proof. destruct w. unfold requested; simpl. by rewrite app_nil_r. Qed.

Lemma scrape_pages_step L fuel page_num df_list w :
  scrape_pages L (S fuel) page_num df_list w =
  match page L page_num with
  | Ok None => (Ok df_list, requested [page_num] w)
  | Ok (Some df) =>
      scrape_pages L fuel (S page_num) (df_list ++ [df])
        (requested [page_num] w)
  | Err e => (Err e, requested [page_num] w)
  end.
Proof.
  cbn [scrape_pages]. unfold mbind at 1, io_bind. rewrite do_scrape_run.
  by destruct (page L page_num) as [[df|]|].
Qed.

(** Pages with a table are fetched one after the other. *)
Lemma scrape_pages_tables L (dfs : list DataFrame) :
  ∀ fuel page_num df_list w,
  page L <$> seq page_num (length dfs) = (λ df, Ok (Some df)) <$> dfs →
  scrape_pages L (length dfs + fuel) page_num df_list w =
  scrape_pages L fuel (page_num + length dfs) (df_list ++ dfs)
    (requested (seq page_num (length dfs)) w).
Proof.
  induction dfs as [|df dfs IH]; intros fuel p acc w Hp.
  - simpl. by rewrite Nat.add_0_r, app_nil_r, requested_nil.
  - injection Hp as Hdf Hp.
    change (length (df :: dfs) + fuel) with (S (length dfs + fuel)).
    rewrite scrape_pages_step, Hdf, IH by done.
    rewrite requested_app, <- (assoc_L (++)). simpl. by rewrite Nat.add_succ_r.
Qed.

Lemma seq_snoc start len : seq start (S len) = seq start len ++ [start + len].
Proof. by rewrite seq_S. Qed.




(** C6 (the script fails here). When page 1 has no table, the list of
    frames is empty and [pl.concat] raises [ValueError]: [fetch_all] does
    not return an empty frame. *)
Theorem fetch_all_no_table_on_first_page L fuel w :
  page L 1 = Ok None →
  fetch_all L (S fuel) w = (Err ValueError, requested [1] w).
Proof.
  intros Hend. unfold fetch_all, mbind, io_bind.
  by rewrite scrape_pages_step, Hend.
Qed.

Lemma fetch_all_no_table_on_first_page_witness :
  fetch_all no_pages 1 empty_world
  = (Err ValueError, {| requests := [1]; files := [] |}).
Proof.
  apply (fetch_all_no_table_on_first_page no_pages 0 empty_world).
  vm_compute. reflexivity.
Defined.

(** ** Transport faults *)

Lemma page_transport_fault L page_num :
  400 ≤ status_code (requests_get L page_num) < 600 →
  page L page_num = Err (HTTPError page_num).
Proof.
  intros [Hlo Hhi]. unfold page, do_scrape, request, mbind, io_bind, lift,
    raise_for_status; cbn -[Nat.leb Nat.ltb].
  apply Nat.leb_le in Hlo as ->. apply Nat.ltb_lt in Hhi as ->. done.
Qed.

(** C9. When pages 1 to n have a table and the request for page n+1 comes
    back with an error status, [main] ends with that [HTTPError]; the
    pages requested are exactly 1, ..., n+1, each once, and the files are
    those that were there before. *)
Theorem transport_fault_aborts L (dfs : list DataFrame) fuel w :
  page L <$> seq 1 (length dfs) = (λ df, Ok (Some df)) <$> dfs →
  400 ≤ status_code (requests_get L (S (length dfs))) < 600 →
  length dfs < fuel →
  main L fuel w
  = (Err (HTTPError (S (length dfs))), requested (seq 1 (S (length dfs))) w)
  ∧ files (main L fuel w).2 = files w.
Proof.
  intros Hpages Hstatus Hfuel.
  assert (Hmain : main L fuel w
    = (Err (HTTPError (S (length dfs))),
       requested (seq 1 (S (length dfs))) w)).
  { replace fuel with (length dfs + S (fuel - S (length dfs))) by lia.
    unfold main, scrape_nasa_outgassing, fetch_all, mbind, io_bind.
    rewrite scrape_pages_tables, scrape_pages_step by done.
    cbn [Nat.add].
    by rewrite page_transport_fault, requested_app, <- seq_snoc. }
  split; [done|]. by rewrite Hmain.
Qed.

Lemma transport_fault_aborts_witness :
  main failing_third_page 10 empty_world
  = (Err (HTTPError 3), {| requests := [1; 2; 3]; files := [] |}).
Proof.
  refine (proj1 (transport_fault_aborts failing_third_page
                   (frames_of failing_third_page [1; 2]) 10 empty_world _ _ _)).
  - vm_compute. reflexivity.
  - vm_compute. lia.
  - vm_compute. lia.
Defined.

(** ** The [Application] column *)

Lemma chars_chars f g s : chars f (chars g s) = chars (f ∘ g) s.
Proof. unfold chars. by rewrite list_ascii_of_string_of_list_ascii. Qed.

Lemma col_str_set name a r : col_str name (set name (of_str a) r) = Ok a.
Proof. unfold col_str, col. rewrite get_set_eq. by destruct a. Qed.

Lemma col_str_set_ne name name' v r :
  name ≠ name' → col_str name' (set name v r) = col_str name' r.
Proof. intros. unfold col_str, col. by rewrite get_set_ne. Qed.

Lemma col_str_get name r a :
  col_str name r = Ok a → get name r = Some (of_str a).
Proof.
  unfold col_str, col. destruct (get name r) as [[]|]; simpl; try done.
  - by intros [= <-].
  - by intros [= <-].
Qed.

Lemma col_str_schema_row name names :
  name ∈ names → col_str name (schema_row names) = Ok None.
Proof. intros. unfold col_str. by rewrite col_null_row. Qed.

Lemma col_str_not_column name r :
  name ∉ columns r → col_str name r = Err (ColumnNotFoundError name).
Proof. intros. unfold col_str. by rewrite col_not_column. Qed.

Lemma acronym_chain (acrs : list string) s :
  foldl (λ s f, f s) s
    ((λ acronym, chars (replace_all (acronym_rule acronym).1 acronym)) <$> acrs)
  = chars (apply_rules (acronym_rule <$> acrs)) s.
Proof.
  revert s. induction acrs as [|a acrs IH]; intros s.
  - unfold chars, apply_rules; simpl. by rewrite string_of_list_ascii_of_string.
  - cbn [fmap list_fmap foldl]. by rewrite IH, chars_chars.
Qed.

Lemma on_application_ok f r a :
  col_str "Application" r = Ok a →
  on_application f r = Ok (set "Application" (of_str (f <$> a)) r).
Proof. intros Ha. unfold on_application, with_columns; simpl. by rewrite Ha. Qed.

Lemma titlecase_application_ok r a :
  col_str "Application" r = Ok a →
  titlecase_application r
  = Ok (set "Raw_Application" (of_str a)
          (set "Application" (of_str (titlecased <$> a)) r)).
Proof.
  intros Ha. pose proof (col_str_get _ _ _ Ha) as Hget.
  unfold titlecase_application, with_columns; simpl. rewrite Ha.
  unfold col. by rewrite Hget.
Qed.

Lemma titlecase_application_Err r e :
  col_str "Application" r = Err e → titlecase_application r = Err e.
Proof.
  intros He. unfold titlecase_application, with_columns.
  cbn [mapM fst snd]. by rewrite He.
Qed.

Lemma result_bind_Ok {A B} (a : A) (k : A → result B) : Ok a ≫= k = k a.
Proof. done. Qed.

Lemma application_Ok r a : col_str "Application" r = Ok a → application r = a.
Proof. unfold application. by intros ->. Qed.

Lemma application_set a r : application (set "Application" (of_str a) r) = a.
Proof. apply application_Ok, col_str_set. Qed.

Lemma fmap_fixed {A} (g : A → A) l : Forall (λ x, g x = x) l → g <$> l = l.
Proof. induction 1 as [|x l Hx _ IH]; [done|]. by rewrite fmap_cons, Hx, IH. Qed.

Lemma rewritten_rewritten g1 g2 r :
  rewritten g2 (rewritten g1 r) = rewritten (g2 ∘ g1) r.
Proof. unfold rewritten. by rewrite application_set, set_set. Qed.

Lemma has_application_columns df r :
  has_application df → r ∈ rows df →
  columns r = header df ∧ "Application" ∈ columns r
  ∧ col_str "Application" r = Ok (application r).
Proof.
  intros (Hwf & Hin & Hstr) Hr. apply well_formed_Forall in Hwf.
  rewrite Forall_forall in Hwf, Hstr.
  rewrite (Hwf r Hr). auto.
Qed.

Lemma has_application_rewritten g df :
  has_application df →
  has_application {| header := header df; rows := rewritten g <$> rows df |}.
Proof.
  intros Hdf. pose proof Hdf as (Hwf & Hin & Hstr). split_and!; [|done|].
  - apply well_formed_Forall, Forall_fmap, Forall_forall. intros r Hr. simpl.
    destruct (has_application_columns df r) as (Hc & Hr' & _); [done..|].
    unfold rewritten. by rewrite columns_set_present.
  - apply Forall_fmap, Forall_forall. intros r _. simpl.
    unfold rewritten. by rewrite application_set, col_str_set.
Qed.

(** One rewrite of [Application] on a frame. *)
Lemma each_row_on_application f df :
  has_application df →
  each_row (on_application f) df
  = Ok {| header := header df; rows := rewritten (fmap f) <$> rows df |}.
Proof.
  intros Hdf. pose proof Hdf as (Hwf & Hin & Hstr).
  rewrite (each_row_Ok _ (rewritten (fmap f)) df
             (set "Application" Null (schema_row (header df)))); [|done|..].
  - by rewrite columns_set_present, columns_schema_row
      by by rewrite columns_schema_row.
  - by rewrite (on_application_ok f _ None) by by apply col_str_schema_row.
  - eapply Forall_impl; [exact Hstr|]. intros r Hr. by apply on_application_ok.
Qed.

(** A chain of rewrites of [Application] touches no other column and
    composes the rewrites. *)
Lemma on_application_chain (fs : list (string → string)) : ∀ df,
  has_application df →
  foldl (λ acc f, df ← acc; each_row (on_application f) df) (Ok df) fs
  = Ok {| header := header df;
          rows := rewritten (fmap (λ s, foldl (λ s f, f s) s fs))
                  <$> rows df |}.
Proof.
  induction fs as [|f fs IH]; intros df Hdf.
  - cbn [foldl]. destruct Hdf as (_ & _ & Hstr). destruct df as [hd rs].
    simpl in *. do 2 f_equal. symmetry. apply fmap_fixed.
    eapply Forall_impl; [exact Hstr|]. intros r Hr. unfold rewritten.
    apply set_id. apply col_str_get in Hr.
    rewrite Hr. by destruct (application r).
  - cbn [foldl]. rewrite result_bind_Ok, each_row_on_application by done.
    rewrite IH by by apply has_application_rewritten. simpl.
    do 2 f_equal. rewrite <- list_fmap_compose. apply list_fmap_ext.
    intros _ r _. simpl. rewrite rewritten_rewritten. unfold rewritten.
    by destruct (application r).
Qed.

Lemma columns_titlecased names a b :
  "Application" ∈ names →
  columns (set "Raw_Application" a (set "Application" b (schema_row names)))
  = with_raw names.
Proof.
  intros Hin. unfold with_raw.
  by rewrite columns_set, columns_set_present, columns_schema_row
    by by rewrite columns_schema_row.
Qed.

Lemma columns_written names a b :
  "Application" ∈ names →
  columns (set "Application" a (set "Raw_Application" b (schema_row names)))
  = with_raw names.
Proof.
  intros Hin. unfold with_raw.
  rewrite columns_set_present.
  - by rewrite columns_set, columns_schema_row.
  - rewrite columns_set, columns_schema_row.
    case_bool_decide; [done|]. apply elem_of_app. by left.
Qed.

(** The first call of the clean-up on a frame. *)
Lemma each_row_titlecase_application df :
  has_application df →
  each_row titlecase_application df
  = Ok {| header := with_raw (header df);
          rows := (λ r, set "Raw_Application" (of_str (application r))
                          (rewritten (fmap titlecased) r)) <$> rows df |}.
Proof.
  intros Hdf. pose proof Hdf as (Hwf & Hin & Hstr).
  rewrite (each_row_Ok _
             (λ r, set "Raw_Application" (of_str (application r))
                     (rewritten (fmap titlecased) r)) df
             (set "Raw_Application" Null
                (set "Application" Null (schema_row (header df)))));
    [|done|..].
  - by rewrite columns_titlecased.
  - by rewrite (titlecase_application_ok _ None)
      by by apply col_str_schema_row.
  - eapply Forall_impl; [exact Hstr|]. intros r Hr.
    by apply titlecase_application_ok.
Qed.

Lemma has_application_titlecased df :
  has_application df →
  has_application
    {| header := with_raw (header df);
       rows := (λ r, set "Raw_Application" (of_str (application r))
                       (rewritten (fmap titlecased) r)) <$> rows df |}.
Proof.
  intros Hdf. pose proof Hdf as (Hwf & Hin & Hstr). split_and!.
  - apply well_formed_Forall, Forall_fmap, Forall_forall. intros r Hr. simpl.
    destruct (has_application_columns df r) as (Hc & Hr' & _); [done..|].
    unfold rewritten, with_raw.
    by rewrite columns_set, columns_set_present, Hc.
  - simpl. unfold with_raw. case_bool_decide; [done|]. apply elem_of_app.
    by left.
  - apply Forall_fmap, Forall_forall. intros r _. simpl. unfold rewritten.
    rewrite col_str_set_ne by done.
    rewrite (application_Ok (set "Raw_Application" _ _)
               (titlecased <$> application r))
      by (rewrite col_str_set_ne by done; apply col_str_set).
    apply col_str_set.
Qed.

Lemma mapM_Err_same {A B C} (f : A → result B) (g : A → result C) l e :
  (∀ x, match f x with
        | Ok _ => ∃ y, g x = Ok y
        | Err e => g x = Err e
        end) →
  mapM f l = Err e → mapM g l = Err e.
Proof.
  intros Hfg. induction l as [|x l IH]; [done|]. cbn [mapM].
  pose proof (Hfg x) as Hx. destruct (f x) as [y|e'].
  - destruct Hx as [z ->]. rewrite !result_bind_Ok.
    destruct (mapM f l) as [ys|e'']; [done|]. intros [= ->]. by rewrite IH.
  - rewrite Hx. by intros [= ->].
Qed.

(** The whole clean-up is the two writes of [application_writes], with
    the same failures. *)
Lemma clean_application_writes df :
  clean_application df = each_row application_writes df.
Proof.
  unfold clean_application.
  destruct (well_formed df) eqn:Hwf;
    [|by rewrite !each_row_not_well_formed].
  destruct (decide ("Application" ∈ header df)) as [Hin|Hin].
  2: { assert (Hcol : col_str "Application" (schema_row (header df))
                      = Err (ColumnNotFoundError "Application"))
         by by rewrite col_str_not_column by by rewrite columns_schema_row.
       rewrite !(each_row_schema_Err _ _ (ColumnNotFoundError "Application"));
         [done..| |done|].
       - unfold application_writes. by rewrite Hcol.
       - by apply titlecase_application_Err. }
  assert (Hcol : col_str "Application" (schema_row (header df)) = Ok None)
    by by apply col_str_schema_row.
  destruct (mapM titlecase_application (rows df)) as [rs|e] eqn:Hrows.
  2: { rewrite (each_row_rows_Err titlecase_application df
                  (set "Raw_Application" Null
                     (set "Application" Null (schema_row (header df)))) e);
         [|done|by apply (titlecase_application_ok _ None)|done].
       rewrite (each_row_rows_Err application_writes df
                  (set "Application" Null
                     (set "Raw_Application" Null (schema_row (header df)))) e);
         [done|done|unfold application_writes; by rewrite Hcol|].
       apply (mapM_Err_same titlecase_application); [|done].
       intros r. unfold application_writes.
       destruct (col_str "Application" r) as [a|e'] eqn:Ha.
       - rewrite (titlecase_application_ok r a) by done. simpl. eauto.
       - by rewrite (titlecase_application_Err r e'). }
  assert (Hdf : has_application df).
  { split_and!; [done..|]. apply mapM_Ok_Forall2 in Hrows. clear -Hrows.
    induction Hrows as [|r r' rows rows' Hr _ IH]; constructor; [|done].
    destruct (col_str "Application" r) as [a|e] eqn:Ha.
    - by rewrite (application_Ok r a).
    - by rewrite (titlecase_application_Err r e) in Hr. }
  rewrite each_row_titlecase_application, result_bind_Ok by done.
  rewrite <- (foldl_fmap (λ acc f, df ← acc; each_row (on_application f) df)).
  rewrite on_application_chain, result_bind_Ok
    by by apply has_application_titlecased.
  rewrite each_row_on_application
    by by apply (has_application_rewritten _ _ (has_application_titlecased _ Hdf)).
  pose proof Hdf as (_ & _ & Hstr).
  rewrite (each_row_Ok application_writes
             (λ r, set "Application" (of_str (normalize <$> application r))
                     (set "Raw_Application" (of_str (application r)) r)) df
             (set "Application" Null
                (set "Raw_Application" Null (schema_row (header df)))));
    [|done|..].
  - cbn [header rows]. rewrite columns_written by done.
    do 2 f_equal. rewrite <- !list_fmap_compose.
    apply Forall_fmap_ext. rewrite Forall_forall. intros r Hr.
    destruct (has_application_columns df r) as (_ & Hr' & _); [done..|].
    unfold compose. rewrite rewritten_rewritten. unfold rewritten at 1.
    rewrite (application_Ok (set "Raw_Application" _ _)
               (titlecased <$> application r))
      by (rewrite col_str_set_ne by done; apply col_str_set).
    unfold rewritten. rewrite set_set_under by done.
    do 2 f_equal. destruct (application r) as [s|]; [|done].
    unfold compose. cbn [fmap option_fmap option_map]. f_equal.
    unfold normalize, with_acronyms. by rewrite <- acronym_chain.
  - unfold application_writes. by rewrite Hcol.
  - eapply Forall_impl; [exact Hstr|]. intros r Hr. cbn beta in Hr.
    unfold application_writes. by rewrite Hr.
Qed.

Lemma application_writes_inv r r' :
  application_writes r = Ok r' →
  ∃ a, col_str "Application" r = Ok a ∧
       r' = set "Application" (of_str (normalize <$> a))
              (set "Raw_Application" (of_str a) r).
Proof.
  unfold application_writes.
  intros (a & Ha & [= <-])%bind_Ok. eauto.
Qed.

(** C4 (amended). After the clean-up, [Raw_Application] holds in every
    row the cell that was scraped, unchanged, and [Application] holds its
    normal form. *)
Theorem raw_application_is_scraped_value df df' :
  clean_application df = Ok df' →
  Forall2
    (λ r r',
       get "Raw_Application" r' = get "Application" r
       ∧ ∃ a, col_str "Application" r = Ok a ∧
              get "Application" r' = Some (of_str (normalize <$> a)))
    (rows df) (rows df').
Proof.
  rewrite clean_application_writes. intros (_ & _ & Hrows)%each_row_inv.
  eapply Forall2_impl; [exact Hrows|]. intros r r' Hr. simpl in Hr.
  apply application_writes_inv in Hr as (a & Ha & ->).
  rewrite get_set_eq, get_set_ne, get_set_eq by done.
  split; [by rewrite (col_str_get _ _ _ Ha) | eauto].
Qed.

Lemma raw_application_is_scraped_value_witness :
  Forall2
    (λ r r',
       get "Raw_Application" r' = get "Application" r
       ∧ ∃ a, col_str "Application" r = Ok a ∧
              get "Application" r' = Some (of_str (normalize <$> a)))
    [[("Application", Str "pc board")]]
    [[("Application", Str "PCB"); ("Raw_Application", Str "pc board")]].
Proof.
  apply (raw_application_is_scraped_value
           {| header := ["Application"];
              rows := [[("Application", Str "pc board")]] |}
           {| header := ["Application"; "Raw_Application"];
              rows := [[("Application", Str "PCB");
                        ("Raw_Application", Str "pc board")]] |}).
  vm_compute. reflexivity.
Defined.

(** [Raw_Application] is not the title-cased value: both expressions of
    the [with_columns] call read the scraped column. *)
Lemma raw_application_not_titlecased :
  ∃ r',
    clean_application
      {| header := ["Application"];
         rows := [[("Application", Str "pc board")]] |}
    = Ok {| header := ["Application"; "Raw_Application"]; rows := [r'] |}
    ∧ get "Raw_Application" r' = Some (Str "pc board")
    ∧ titlecased "pc board" = "Pc Board"
    ∧ get "Raw_Application" r' ≠ Some (Str (titlecased "pc board")).
Proof.
  eexists. split; [vm_compute; reflexivity|].
  split_and!; [by vm_compute..|]. vm_compute. discriminate.
Qed.

(** ** Which characters a substitution can produce *)

Lemma replace_from_chars r rep c : ∀ s skip prev,
  c ∈ replace_from r rep skip prev s → c ∈ rep ∨ c ∈ s.
Proof.
  induction s as [|d s IH]; intros skip prev; simpl.
  - destruct skip, (match_at r prev []); rewrite ?elem_of_nil; tauto.
  - destruct skip as [|n].
    + destruct (match_at r prev (d :: s)) as [[|n]|].
      * rewrite elem_of_app, !elem_of_cons. intros [?|[?|[?|?]%IH]]; auto.
      * rewrite elem_of_app, elem_of_cons. intros [?|[?|?]%IH]; auto.
      * rewrite !elem_of_cons. intros [?|[?|?]%IH]; auto.
    + intros [?|?]%IH; rewrite elem_of_cons; auto.
Qed.

Lemma replace_all_chars r rep c s :
  c ∈ replace_all r rep s → c ∈ list_ascii_of_string rep ∨ c ∈ s.
Proof. apply replace_from_chars. Qed.

Lemma apply_rules_chars c rules : ∀ s,
  Forall (λ rule, c ∉ list_ascii_of_string rule.2) rules →
  c ∉ s → c ∉ apply_rules rules s.
Proof.
  unfold apply_rules.
  induction rules as [|rule rules IH]; intros s Hrules Hs; [done|].
  apply Forall_cons in Hrules as [Hrule Hrules]. simpl. apply IH; [done|].
  intros [?|?]%replace_from_chars; done.
Qed.

Lemma strip_start_chars space c s : c ∈ strip_start space s → c ∈ s.
Proof.
  induction s as [|d s IH]; simpl; [done|].
  destruct (space d); [|done]. intros ?%IH. by right.
Qed.

Lemma strip_chars_chars space c s : c ∈ strip space s → c ∈ s.
Proof.
  unfold strip. rewrite elem_of_reverse. intros ?%strip_start_chars.
  by eapply strip_start_chars, elem_of_reverse.
Qed.

Lemma replace_cases mapping s :
  replace mapping s = s ∨ replace mapping s ∈ mapping.*2.
Proof.
  induction mapping as [|[k v] mapping IH]; simpl; [by left|].
  destruct (String.eqb k s); [right; left|].
  destruct IH as [?|?]; [by left | by right; right].
Qed.

(** *** A pattern of one character *)

Lemma match_at_Chr p prev c s :
  match_at (Chr p) prev (c :: s) = if p c then Some 1 else None.
Proof.
  unfold match_at; cbn [exec]. destruct (p c); [|done].
  f_equal. simpl. lia.
Qed.

Lemma replace_from_Chr p rep : ∀ s prev,
  replace_from (Chr p) rep 0 prev s = s ≫= λ c, if p c then rep else [c].
Proof.
  induction s as [|c s IH]; intros prev; [done|].
  cbn [replace_from]. rewrite match_at_Chr.
  change ((c :: s) ≫= _) with
    ((if p c then rep else [c]) ++ (s ≫= λ c, if p c then rep else [c])).
  destruct (p c); by rewrite IH.
Qed.

(** A rule that rewrites one character leaves none of it behind, and
    changes nothing where the character does not occur. *)
Lemma replace_char_free c rep l :
  c ∉ list_ascii_of_string rep → c ∉ replace_all (Chr (eq_cs c)) rep l.
Proof.
  intros Hrep. unfold replace_all. rewrite replace_from_Chr, list_elem_of_bind.
  intros (d & Hd & _). unfold eq_cs in Hd. destruct (Ascii.eqb c d) eqn:E; [done|].
  apply list_elem_of_singleton in Hd as <-. by rewrite Ascii.eqb_refl in E.
Qed.

Lemma replace_char_absent c rep l :
  c ∉ l → replace_all (Chr (eq_cs c)) rep l = l.
Proof.
  intros Hl. unfold replace_all. rewrite replace_from_Chr.
  induction l as [|d l IH]; [done|].
  apply not_elem_of_cons in Hl as [Hd Hl]. rewrite bind_cons, IH by done.
  unfold eq_cs. by apply Ascii.eqb_neq in Hd as ->.
Qed.

Lemma apply_rules_app rules1 rules2 l :
  apply_rules (rules1 ++ rules2) l = apply_rules rules2 (apply_rules rules1 l).
Proof. apply foldl_app. Qed.

(** *** Stripping *)

Lemma strip_start_idemp space s :
  strip_start space (strip_start space s) = strip_start space s.
Proof.
  induction s as [|c s IH]; [done|]. simpl.
  destruct (space c) eqn:E; [done|]. simpl. by rewrite E.
Qed.

Lemma strip_start_head space s c :
  head (strip_start space s) = Some c → space c = false.
Proof.
  induction s as [|d s IH]; [done|]. simpl.
  destruct (space d) eqn:E; [done|]. by intros [= <-].
Qed.

Lemma strip_start_clean space s :
  (∀ c, head s = Some c → space c = false) → strip_start space s = s.
Proof. destruct s as [|c s]; [done|]. intros H. simpl. by rewrite H. Qed.

Lemma strip_start_suffix space s : ∃ pre, s = pre ++ strip_start space s.
Proof.
  induction s as [|c s [pre IH]]; [by exists []|]. simpl.
  destruct (space c); [|by exists []].
  exists (c :: pre). by rewrite <- app_comm_cons, <- IH.
Qed.

Lemma strip_idemp space s : strip space (strip space s) = strip space s.
Proof.
  unfold strip.
  set (t := strip_start space s).
  set (u := strip_start space (reverse t)).
  assert (Hu : strip_start space (reverse u) = reverse u).
  { apply strip_start_clean. intros c Hc.
    destruct (strip_start_suffix space (reverse t)) as [pre Hpre].
    fold u in Hpre. apply (f_equal reverse) in Hpre.
    rewrite reverse_involutive, reverse_app in Hpre.
    apply (strip_start_head space s). fold t. rewrite Hpre.
    destruct (reverse u); [done|]. done. }
  rewrite Hu, reverse_involutive. unfold u. by rewrite strip_start_idemp.
Qed.

(** ** The ampersand *)

Lemma substitutions_head :
  substitutions = (cs "&", " and ") :: tail substitutions.
Proof. reflexivity. Qed.

Lemma ampersand_rule l :
  replace_all (cs "&") " and " l = ampersands_spelled_out l.
Proof. apply replace_from_Chr. Qed.

Lemma ampersands_spelled_out_free l : "&"%char ∉ ampersands_spelled_out l.
Proof.
  unfold ampersands_spelled_out. rewrite list_elem_of_bind.
  intros (c & Hc & _). destruct (Ascii.eqb c "&") eqn:E.
  - revert Hc. apply (bool_decide_unpack (_ ∉ _)). by vm_compute.
  - apply list_elem_of_singleton in Hc as <-. by rewrite Ascii.eqb_refl in E.
Qed.

Lemma later_substitutions_free :
  Forall (λ rule : regex * string, "&"%char ∉ list_ascii_of_string rule.2)
         (tail substitutions).
Proof.
  unfold substitutions; cbn [tail].
  repeat (constructor;
          [apply (bool_decide_unpack (_ ∉ _)); vm_compute; exact I|]).
  constructor.
Qed.

Lemma residual_corrections_free :
  Forall (λ v, "&"%char ∉ list_ascii_of_string v) residual_corrections.*2.
Proof.
  repeat (constructor;
          [apply (bool_decide_unpack (_ ∉ _)); vm_compute; exact I|]).
  constructor.
Qed.

Lemma cleaned_has_no_ampersand l :
  "&"%char ∉ strip_chars (apply_rules substitutions l).
Proof.
  intros Hc%strip_chars_chars. revert Hc.
  rewrite substitutions_head. unfold apply_rules at 1. cbn [foldl fst snd].
  rewrite ampersand_rule.
  apply apply_rules_chars;
    [apply later_substitutions_free | apply ampersands_spelled_out_free].
Qed.

(** ** Worked examples of the clean-up *)

Example normalize_two_side_tape : normalize "2 SIDE TAPE" = "Tape, Double-Sided".
Proof. by vm_compute. Qed.

Example normalize_thermal_cond_matl :
  normalize "Thermal Cond Matl" = "Thermally-Conductive Material".
Proof. by vm_compute. Qed.

Example normalize_pc_board : normalize "PC Board" = "PCB".
Proof. by vm_compute. Qed.

(** The greedy [.?] of the [3D] rule can leave a [d] behind. *)
Example normalize_3ddd :
  normalize "3ddd" = "3Dd" ∧ normalize "3Dd" = "3D".
Proof. by vm_compute. Qed.

(** ** Running the clean-up twice *)

Lemma to_upper_idemp c : to_upper (to_upper c) = to_upper c.
Proof. by destruct c as [[] [] [] [] [] [] [] []]. Qed.

Lemma to_lower_idemp c : to_lower (to_lower c) = to_lower c.
Proof. by destruct c as [[] [] [] [] [] [] [] []]. Qed.

Lemma is_alphanumeric_to_upper c :
  is_alphanumeric (to_upper c) = is_alphanumeric c.
Proof. by destruct c as [[] [] [] [] [] [] [] []]. Qed.

Lemma is_alphanumeric_to_lower c :
  is_alphanumeric (to_lower c) = is_alphanumeric c.
Proof. by destruct c as [[] [] [] [] [] [] [] []]. Qed.

Lemma titlecase_from_idemp s : ∀ b,
  titlecase_from b (titlecase_from b s) = titlecase_from b s.
Proof.
  induction s as [|c s IH]; intros b; [done|]. simpl. destruct b.
  - by rewrite to_upper_idemp, is_alphanumeric_to_upper, IH.
  - by rewrite to_lower_idemp, is_alphanumeric_to_lower, IH.
Qed.

Lemma titlecased_idemp s : titlecased (titlecased s) = titlecased s.
Proof.
  unfold titlecased. rewrite chars_chars. unfold chars, to_titlecase, compose.
  by rewrite titlecase_from_idemp.
Qed.

Lemma residual_corrections_idemp s :
  replace residual_corrections (replace residual_corrections s)
  = replace residual_corrections s.
Proof.
  destruct (replace_cases residual_corrections s) as [Heq | Hin];
    [by rewrite !Heq|].
  revert Hin. generalize (replace residual_corrections s). intros v Hv.
  cbn in Hv. repeat (apply elem_of_cons in Hv as [-> | Hv]; [by vm_compute|]).
  by apply elem_of_nil in Hv.
Qed.

(** A property of the cleaned text and of the dictionary's values holds
    of every normal form. *)
Lemma normalize_ind (P : string → Prop) :
  (∀ l, P (string_of_list_ascii (strip_chars (apply_rules substitutions l)))) →
  Forall P residual_corrections.*2 →
  ∀ x, P (normalize x).
Proof.
  intros Hclean Hdict x. unfold normalize, substituted.
  destruct (replace_cases residual_corrections
              (chars (λ l, strip_chars (apply_rules substitutions l))
                     (with_acronyms (titlecased x)))) as [-> | Hin].
  - apply Hclean.
  - by eapply Forall_forall in Hin.
Qed.

Lemma substitutions_end :
  substitutions
  = take 26 substitutions ++ [(cs ".", ""); (Plus (Chr is_space), " ")].
Proof. reflexivity. Qed.

Lemma normalized_has_no_period x :
  "."%char ∉ list_ascii_of_string (normalize x).
Proof.
  revert x. apply (normalize_ind (λ y, "."%char ∉ list_ascii_of_string y)).
  - intros l. rewrite list_ascii_of_string_of_list_ascii.
    intros Hc%strip_chars_chars. revert Hc.
    rewrite substitutions_end, apply_rules_app.
    generalize (apply_rules (take 26 substitutions) l) as l'. intros l'.
    unfold apply_rules; cbn [foldl fst snd].
    intros [Hc|Hc]%replace_all_chars.
    + revert Hc. apply (bool_decide_unpack (_ ∉ _)). by vm_compute.
    + revert Hc. apply (replace_char_free "." "" l'), not_elem_of_nil.
  - repeat (constructor;
            [apply (bool_decide_unpack (_ ∉ _)); vm_compute; exact I|]).
    constructor.
Qed.

Lemma normalized_is_stripped x :
  chars strip_chars (normalize x) = normalize x.
Proof.
  revert x. apply (normalize_ind (λ y, chars strip_chars y = y)).
  - intros l. unfold chars, strip_chars.
    by rewrite list_ascii_of_string_of_list_ascii, strip_idemp.
  - apply (bool_decide_unpack (Forall _ _)). by vm_compute.
Qed.

Lemma chars_fixed f s :
  f (list_ascii_of_string s) = list_ascii_of_string s → chars f s = s.
Proof. intros Hf. unfold chars. by rewrite Hf, string_of_list_ascii_of_string. Qed.

(** ** Collapsing white space *)

(** A greedy run of one class takes the longest prefix in the class. *)
Lemma exec_spaces {R} p (f : list ascii → R) s prev :
  exec (Star (Chr p)) prev s (λ _ s', Some (f s'))
  = Some (f (strip_start p s)).
Proof.
  cbn [exec]. remember (length s) as n eqn:Hn.
  assert (Hle : (length s ≤ n)%nat) by lia. clear Hn.
  revert s prev Hle. induction n as [|n IH]; intros s prev Hle.
  - destruct s; [done|]. simpl in Hle. lia.
  - destruct s as [|c s]; [done|]. simpl in Hle.
    cbn [strip_start]. destruct (p c) eqn:Hc; [|done].
    assert ((length s <? length (c :: s))%nat = true) as ->
      by (apply Nat.ltb_lt; simpl; lia).
    by rewrite (IH s (Some c)) by lia.
Qed.

Lemma match_at_spaces p prev s :
  match_at (Plus (Chr p)) prev s =
  match s with
  | [] => None
  | c :: s' =>
      if p c then Some (S (length s' - length (strip_start p s'))) else None
  end.
Proof.
  unfold match_at, Plus. destruct s as [|c s]; [done|].
  change (exec (Seq (Chr p) (Star (Chr p))) prev (c :: s) ?k)
    with (if p c then exec (Star (Chr p)) (Some c) s k else None).
  destruct (p c); [|done].
  rewrite (exec_spaces p (λ s', (length (c :: s) - length s')%nat)).
  f_equal. destruct (strip_start_suffix p s) as [pre Hpre].
  apply (f_equal length) in Hpre. rewrite length_app in Hpre.
  simpl. lia.
Qed.

Lemma replace_from_spaces_nil p rep skip prev :
  replace_from (Plus (Chr p)) rep skip prev [] = [].
Proof. cbn [replace_from]. rewrite match_at_spaces. by destruct skip. Qed.

(** The scan for a run of spaces does not look at the character before,
    and skipping [skip] characters is dropping them. *)
Lemma replace_from_spaces_skip p rep : ∀ s skip prev,
  replace_from (Plus (Chr p)) rep skip prev s
  = replace_from (Plus (Chr p)) rep 0 None (drop skip s).
Proof.
  induction s as [|c s IH]; intros skip prev.
  - rewrite drop_nil. by rewrite !replace_from_spaces_nil.
  - destruct skip as [|n].
    + cbn [replace_from drop]. rewrite !match_at_spaces.
      destruct (p c); by rewrite ?(IH _ (Some c)), ?(IH 0 None).
    + cbn [replace_from drop]. apply IH.
Qed.

Lemma replace_from_spaces_cons p rep c s prev :
  replace_from (Plus (Chr p)) rep 0 prev (c :: s) =
  if p c
  then rep ++ replace_from (Plus (Chr p)) rep 0 None (strip_start p s)
  else c :: replace_from (Plus (Chr p)) rep 0 None s.
Proof.
  cbn [replace_from]. rewrite match_at_spaces. destruct (p c).
  - rewrite replace_from_spaces_skip. do 2 f_equal.
    destruct (strip_start_suffix p s) as [pre Hpre].
    remember (strip_start p s) as t eqn:Ht. clear Ht. subst s.
    rewrite length_app.
    replace (length pre + length t - length t)%nat with (length pre) by lia.
    by rewrite drop_app_length.
  - by rewrite replace_from_spaces_skip.
Qed.

Lemma collapse_head_clean rep l :
  (∀ c, head l = Some c → is_space c = false) →
  from_option is_space false
    (head (replace_from (Plus (Chr is_space)) rep 0 None l)) = false.
Proof.
  destruct l as [|c l]; intros Hl.
  - by rewrite replace_from_spaces_nil.
  - rewrite replace_from_spaces_cons, (Hl c) by done. simpl. by apply Hl.
Qed.

(** After the collapse, white space occurs only as single spaces. *)
Lemma collapse_single_spaced l :
  single_spaced (replace_all (Plus (Chr is_space)) " " l) = true.
Proof.
  unfold replace_all. change (list_ascii_of_string " ") with [" "%char].
  remember (length l) as n eqn:Hn.
  assert (Hle : (length l ≤ n)%nat) by lia. clear Hn.
  revert l Hle. induction n as [|n IH]; intros l Hle.
  - destruct l; [|simpl in Hle; lia]. by rewrite replace_from_spaces_nil.
  - destruct l as [|c l]; [by rewrite replace_from_spaces_nil|].
    simpl in Hle. rewrite replace_from_spaces_cons.
    destruct (is_space c) eqn:Hc.
    + cbn [app single_spaced]. rewrite collapse_head_clean, IH; [done| |].
      * destruct (strip_start_suffix is_space l) as [pre Hpre].
        apply (f_equal length) in Hpre. rewrite length_app in Hpre. lia.
      * apply strip_start_head.
    + cbn [single_spaced]. rewrite Hc, IH by lia. done.
Qed.

(** On such a string the collapse changes nothing. *)
Lemma collapse_fixed l :
  single_spaced l = true → replace_all (Plus (Chr is_space)) " " l = l.
Proof.
  unfold replace_all. change (list_ascii_of_string " ") with [" "%char].
  generalize (@None ascii) as prev.
  induction l as [|c l IH]; intros prev Hl.
  - by rewrite replace_from_spaces_nil.
  - rewrite replace_from_spaces_cons. cbn [single_spaced] in Hl.
    apply andb_prop in Hl as [Hc Hl]. destruct (is_space c).
    + apply andb_prop in Hc as [->%Ascii.eqb_eq Hhead].
      rewrite strip_start_clean, IH; [done..|].
      intros d Hd. rewrite Hd in Hhead. simpl in Hhead.
      by apply negb_true_iff in Hhead.
    + by rewrite IH.
Qed.

Lemma single_spaced_app l1 l2 :
  single_spaced (l1 ++ l2) = true →
  single_spaced l1 = true ∧ single_spaced l2 = true.
Proof.
  induction l1 as [|c l1 IH]; [done|]. cbn [app single_spaced].
  intros [Hc [H1 H2]%IH]%andb_prop. split; [|done].
  rewrite H1, andb_true_r. destruct (is_space c); [|done].
  apply andb_prop in Hc as [-> Hc]. by destruct l1.
Qed.

Lemma strip_infix space l : ∃ pre post, l = pre ++ strip space l ++ post.
Proof.
  unfold strip. destruct (strip_start_suffix space l) as [pre Hpre].
  destruct (strip_start_suffix space (reverse (strip_start space l)))
    as [post Hpost].
  exists pre, (reverse post). rewrite <- reverse_app, <- Hpost.
  by rewrite reverse_involutive.
Qed.

Lemma strip_single_spaced space l :
  single_spaced l = true → single_spaced (strip space l) = true.
Proof.
  destruct (strip_infix space l) as (pre & post & Hl). rewrite Hl at 1.
  by intros [_ [? _]%single_spaced_app]%single_spaced_app.
Qed.

Lemma substitutions_last :
  substitutions = take 27 substitutions ++ [(Plus (Chr is_space), " ")].
Proof. reflexivity. Qed.

Lemma normalized_single_spaced x :
  single_spaced (list_ascii_of_string (normalize x)) = true.
Proof.
  revert x.
  apply (normalize_ind (λ y, single_spaced (list_ascii_of_string y) = true)).
  - intros l. rewrite list_ascii_of_string_of_list_ascii.
    apply strip_single_spaced.
    rewrite substitutions_last, apply_rules_app.
    apply collapse_single_spaced.
  - apply (bool_decide_unpack (Forall _ _)). by vm_compute.
Qed.

(** The specification's concern made concrete: the periods are removed
    after the compound rule has been tried, so the second run sees a match
    that the first run did not. *)
Lemma normalize_not_idempotent :
  normalize "Therm. Cond." = "Thermal Conductive"
  ∧ normalize "Thermal Conductive" = "Thermally-Conductive"
  ∧ normalize (normalize "Therm. Cond.") ≠ normalize "Therm. Cond.".
Proof. split_and!; [by vm_compute..|]. vm_compute. discriminate. Qed.

(** C2 (amended). Running the clean-up twice gives the same value as
    running it once on each of the tested inputs, and every text written
    by a rule is left as it is (up to the final stripping).  On every
    input, the rules for ["&"], for periods and for white space, the
    stripping and the dictionary change nothing when they are run again on
    the normal form, and the title-casing and the dictionary are
    idempotent. *)
Theorem normalize_idempotent_on_tested_inputs :
  Forall (λ x, normalize (normalize x) = normalize x) tested_inputs
  ∧ Forall (λ v, normalize v = chars strip_chars v)
           (acronyms ++ (snd <$> substitutions) ++ residual_corrections.*2)
  ∧ (∀ x, chars (replace_all (cs "&") " and ") (normalize x) = normalize x
          ∧ chars (replace_all (cs ".") "") (normalize x) = normalize x
          ∧ chars (replace_all (Plus (Chr is_space)) " ") (normalize x)
            = normalize x
          ∧ chars strip_chars (normalize x) = normalize x
          ∧ replace residual_corrections (normalize x) = normalize x)
  ∧ (∀ s, titlecased (titlecased s) = titlecased s)
  ∧ (∀ s, replace residual_corrections (replace residual_corrections s)
          = replace residual_corrections s).
Proof.
  split_and!.
  - apply (bool_decide_unpack (Forall _ _)). by vm_compute.
  - apply (bool_decide_unpack (Forall _ _)). by vm_compute.
  - intros x. split_and!.
    + apply chars_fixed, (replace_char_absent "&").
      revert x. apply (normalize_ind (λ y, "&"%char ∉ list_ascii_of_string y)).
      * intros l. rewrite list_ascii_of_string_of_list_ascii.
        apply cleaned_has_no_ampersand.
      * apply residual_corrections_free.
    + apply chars_fixed, (replace_char_absent "."), normalized_has_no_period.
    + apply chars_fixed, collapse_fixed, normalized_single_spaced.
    + apply normalized_is_stripped.
    + apply residual_corrections_idemp.
  - apply titlecased_idemp.
  - apply residual_corrections_idemp.
Qed.

(** ** What a pattern can match *)

(** The matcher finds words of the pattern only. *)
Lemma exec_sound {R} r : ∀ prev s (k : option ascii → list ascii → option R) x,
  exec r prev s k = Some x →
  ∃ w s' prev', s = w ++ s' ∧ matches r w ∧ k prev' s' = Some x.
Proof.
  induction r as [|p|r1 IH1 r2 IH2|r1 IH1 r2 IH2|r IH|]; intros prev s k x;
    cbn [exec].
  - intros H. exists [], s, prev. split_and!; [done|constructor|done].
  - destruct s as [|c s]; [done|]. destruct (p c) eqn:Hc; [|done]. intros H.
    exists [c], s, (Some c). split_and!; [done|by constructor|done].
  - intros (w1 & s1 & prev1 & -> & Hw1 & H)%IH1.
    apply IH2 in H as (w2 & s2 & prev2 & -> & Hw2 & Hk).
    exists (w1 ++ w2), s2, prev2. rewrite <- (assoc_L (++)).
    split_and!; [done|by constructor|done].
  - destruct (exec r1 prev s k) as [y|] eqn:E1.
    + intros [= <-]. apply IH1 in E1 as (w & s' & prev' & -> & Hw & Hk).
      exists w, s', prev'. split_and!; [done|by apply matches_Alt_l|done].
    + intros (w & s' & prev' & -> & Hw & Hk)%IH2.
      exists w, s', prev'. split_and!; [done|by apply matches_Alt_r|done].
  - generalize (length s) as n. intros n. revert prev s x.
    induction n as [|n IHn]; intros prev s x.
    + intros H. exists [], s, prev. split_and!; [done|constructor|done].
    + destruct (exec r prev s
                  (λ prev' s', if (length s' <? length s)%nat
                               then _ else None)) as [y|] eqn:E.
      * intros [= <-]. apply IH in E as (w1 & s1 & prev1 & -> & Hw1 & Hk).
        destruct (length s1 <? length (w1 ++ s1))%nat; [|done].
        apply IHn in Hk as (w2 & s2 & prev2 & -> & Hw2 & Hk).
        exists (w1 ++ w2), s2, prev2. rewrite <- (assoc_L (++)).
        split_and!; [done|by constructor|done].
      * intros H. exists [], s, prev. split_and!; [done|constructor|done].
  - destruct (xorb _ _); [|done]. intros H.
    exists [], s, prev. split_and!; [done|constructor|done].
Qed.

Lemma match_at_matches r prev s n :
  match_at r prev s = Some n →
  ∃ w s', s = w ++ s' ∧ n = length w ∧ matches r w.
Proof.
  unfold match_at. intros (w & s' & prev' & -> & Hw & [= <-])%exec_sound.
  exists w, s'. split_and!; [done| |done]. rewrite length_app. lia.
Qed.

Lemma neighbours_weaken (Q Q' : ascii → ascii → bool) w :
  (∀ a b, Q a b = true → Q' a b = true) →
  neighbours Q w = true → neighbours Q' w = true.
Proof.
  intros HQ. induction w as [|a w IH]; [done|]. destruct w as [|b w]; [done|].
  cbn [neighbours] in *. intros [Hab Hw]%andb_prop.
  by rewrite (HQ _ _ Hab), IH.
Qed.

Lemma neighbours_app Q w1 w2 :
  neighbours Q w1 = true → neighbours Q w2 = true →
  (∀ a b, last w1 = Some a → head w2 = Some b → Q a b = true) →
  neighbours Q (w1 ++ w2) = true.
Proof.
  induction w1 as [|a w1 IH]; intros H1 H2 HQ; [done|].
  destruct w1 as [|b w1].
  - destruct w2 as [|b w2]; [done|]. cbn [app neighbours] in *.
    by rewrite (HQ a b), H2.
  - cbn [app neighbours] in *. apply andb_prop in H1 as [-> H1].
    rewrite IH; [done..|]. intros a' b'. apply HQ.
Qed.

Lemma neighbours_elim Q u a b v :
  neighbours Q (u ++ a :: b :: v) = true → Q a b = true.
Proof.
  induction u as [|c u IH]; cbn [app neighbours].
  - by intros [? _]%andb_prop.
  - destruct u as [|d u]; cbn [app] in *; intros [_ H]%andb_prop;
      by apply IH.
Qed.

(** The characters and neighbours of a word are those that the analysis
    of the pattern allows. *)
Lemma matches_analysis r w :
  matches r w →
  (w = [] → nullable r = true)
  ∧ (∀ c, head w = Some c → first r c = true)
  ∧ (∀ c, last w = Some c → final r c = true)
  ∧ (∀ c, c ∈ w → uses r c = true)
  ∧ neighbours (follows r) w = true.
Proof.
  induction 1 as [|p c Hc|r1 r2 w1 w2 _ IH1 _ IH2|r1 r2 w _ IH|r1 r2 w _ IH
                  |r|r w1 w2 _ IH1 _ IH2|]; cbn [nullable first final uses follows].
  - split_and!; try done. by intros c ?%elem_of_nil.
  - split_and!; try done.
    + by intros c' [= <-].
    + by intros c' [= <-].
    + by intros c' ->%list_elem_of_singleton.
  - destruct IH1 as (Hn1 & Hf1 & Hl1 & Hu1 & Hp1).
    destruct IH2 as (Hn2 & Hf2 & Hl2 & Hu2 & Hp2). split_and!.
    + intros [-> ->]%app_eq_nil. by rewrite Hn1, Hn2.
    + intros c. destruct w1 as [|a w1].
      * intros Hc. by rewrite Hn1, (Hf2 c), orb_true_r.
      * intros Hc. by rewrite (Hf1 c).
    + intros c. rewrite last_app. destruct (last w2) as [b|] eqn:E.
      * intros [= <-]. by rewrite (Hl2 b).
      * apply last_None in E as ->. intros Hc.
        by rewrite Hn2, (Hl1 c), orb_true_r.
    + intros c [Hc|Hc]%elem_of_app.
      * by rewrite (Hu1 c).
      * by rewrite (Hu2 c), orb_true_r.
    + apply neighbours_app.
      * eapply neighbours_weaken; [|exact Hp1]. by intros a b ->.
      * eapply neighbours_weaken; [|exact Hp2]. intros a b ->.
        by rewrite orb_true_r.
      * intros a b Ha Hb. by rewrite (Hl1 a), (Hf2 b), orb_true_r.
  - destruct IH as (Hn & Hf & Hl & Hu & Hp). split_and!.
    + intros Hw. by rewrite Hn.
    + intros c Hc. by rewrite (Hf c).
    + intros c Hc. by rewrite (Hl c).
    + intros c Hc. by rewrite (Hu c).
    + eapply neighbours_weaken; [|exact Hp]. by intros a b ->.
  - destruct IH as (Hn & Hf & Hl & Hu & Hp). split_and!.
    + intros Hw. by rewrite Hn, orb_true_r.
    + intros c Hc. by rewrite (Hf c), orb_true_r.
    + intros c Hc. by rewrite (Hl c), orb_true_r.
    + intros c Hc. by rewrite (Hu c), orb_true_r.
    + eapply neighbours_weaken; [|exact Hp]. intros a b ->.
      by rewrite orb_true_r.
  - split_and!; try done. by intros c ?%elem_of_nil.
  - destruct IH1 as (Hn1 & Hf1 & Hl1 & Hu1 & Hp1).
    destruct IH2 as (Hn2 & Hf2 & Hl2 & Hu2 & Hp2).
    cbn [nullable first final uses follows] in *. split_and!.
    + done.
    + intros c. destruct w1 as [|a w1]; [apply Hf2 | apply Hf1].
    + intros c. rewrite last_app. destruct (last w2) as [b|] eqn:E.
      * intros [= <-]. by apply Hl2.
      * intros Hc. by apply Hl1.
    + intros c [Hc|Hc]%elem_of_app; [by apply Hu1 | by apply Hu2].
    + apply neighbours_app.
      * eapply neighbours_weaken; [|exact Hp1]. by intros a b ->.
      * done.
      * intros a b Ha Hb. by rewrite (Hl1 a), (Hf2 b), orb_true_r.
  - split_and!; try done. by intros c ?%elem_of_nil.
Qed.

(** No match starts at a character that no word starts with. *)
Lemma no_match_at r c prev s :
  nullable r = false → first r c = false → match_at r prev (c :: s) = None.
Proof.
  intros Hn Hf. destruct (match_at r prev (c :: s)) as [n|] eqn:E; [|done].
  apply match_at_matches in E as (w & s' & Hs & _ & Hw).
  apply matches_analysis in Hw as (Hnil & Hfirst & _).
  destruct w as [|a w].
  - by rewrite Hnil in Hn.
  - injection Hs as <- _. by rewrite (Hfirst c) in Hf.
Qed.

(** A match that starts before a space followed by [b] and runs over the
    space ends with it or has the two as neighbours. *)
Lemma match_within r a b prev p s n :
  final r a = false → follows r a b = false →
  match_at r prev (p ++ a :: b :: s) = Some n → (n ≤ length p)%nat.
Proof.
  intros Hl Hp (w & s' & Hs & -> & Hw)%match_at_matches.
  apply matches_analysis in Hw as (_ & _ & Hlast & _ & Hpairs).
  symmetry in Hs. apply app_eq_inv in Hs as [(k & -> & Hk)|(k & -> & _)].
  - destruct k as [|c1 [|c2 k]].
    + rewrite app_nil_r. done.
    + injection Hk as <- _. rewrite (Hlast a) in Hl; [done|].
      by rewrite last_snoc.
    + injection Hk as <- <- _.
      by rewrite (neighbours_elim _ _ _ _ _ Hpairs) in Hp.
  - rewrite length_app. lia.
Qed.

(** ** A rule that changes no character it cannot match *)

Lemma occurrences_app c l1 l2 :
  occurrences c (l1 ++ l2) = (occurrences c l1 + occurrences c l2)%nat.
Proof. unfold occurrences. by rewrite filter_app, length_app. Qed.

Lemma occurrences_cons c d l :
  occurrences c (d :: l)
  = ((if bool_decide (d = c) then 1 else 0) + occurrences c l)%nat.
Proof.
  unfold occurrences. case_bool_decide.
  - by rewrite filter_cons_True.
  - by rewrite filter_cons_False.
Qed.

Lemma occurrences_0 c l : c ∉ l → occurrences c l = 0%nat.
Proof.
  induction l as [|d l IH]; [done|].
  intros [Hd Hl]%not_elem_of_cons. rewrite occurrences_cons, IH by done.
  by rewrite bool_decide_eq_false_2 by congruence.
Qed.

Lemma replace_from_occurrences r rep c :
  uses r c = false → c ∉ rep →
  ∀ s skip prev,
    c ∉ take skip s →
    occurrences c (replace_from r rep skip prev s) = occurrences c s.
Proof.
  intros Hu Hrep. induction s as [|d s IH]; intros skip prev Hskip.
  - cbn [replace_from]. destruct skip, (match_at r prev []);
      try done. by apply occurrences_0.
  - cbn [replace_from]. destruct skip as [|n].
    + destruct (match_at r prev (d :: s)) as [[|n]|] eqn:E.
      * rewrite occurrences_app, occurrences_0, !occurrences_cons by done.
        by rewrite IH by (rewrite take_0; apply not_elem_of_nil).
      * apply match_at_matches in E as (w & s' & Hs & Hn & Hw).
        apply matches_analysis in Hw as (_ & _ & _ & Huses & _).
        destruct w as [|a w]; [done|]. injection Hs as <- ->.
        injection Hn as ->.
        assert (Hc : c ∉ d :: w).
        { intros Hc. by rewrite (Huses c Hc) in Hu. }
        apply not_elem_of_cons in Hc as [Hd Hw].
        rewrite occurrences_app, (occurrences_0 c rep), occurrences_cons by done.
        rewrite bool_decide_eq_false_2 by congruence.
        apply IH. by rewrite take_app_length.
      * rewrite !occurrences_cons.
        by rewrite IH by (rewrite take_0; apply not_elem_of_nil).
    + cbn [take] in Hskip. apply not_elem_of_cons in Hskip as [Hd Hskip].
      rewrite occurrences_cons, bool_decide_eq_false_2 by congruence.
      by apply IH.
Qed.

Lemma apply_rules_occurrences c rules :
  Forall (λ rule : regex * string,
            uses rule.1 c = false ∧ c ∉ list_ascii_of_string rule.2) rules →
  ∀ s, occurrences c (apply_rules rules s) = occurrences c s.
Proof.
  unfold apply_rules. induction 1 as [|rule rules [Hu Hrep] _ IH]; intros s.
  - done.
  - cbn [foldl]. rewrite IH. apply replace_from_occurrences; [done..|].
    rewrite take_0. apply not_elem_of_nil.
Qed.

Lemma to_upper_ampersand c : to_upper c = "&"%char ↔ c = "&"%char.
Proof. by destruct c as [[] [] [] [] [] [] [] []]. Qed.

Lemma to_lower_ampersand c : to_lower c = "&"%char ↔ c = "&"%char.
Proof. by destruct c as [[] [] [] [] [] [] [] []]. Qed.

Lemma titlecase_from_ampersands s : ∀ b,
  occurrences "&" (titlecase_from b s) = occurrences "&" s.
Proof.
  induction s as [|c s IH]; intros b; [done|]. cbn [titlecase_from].
  rewrite !occurrences_cons, IH. f_equal.
  apply (f_equal (λ b : bool, if b then 1%nat else 0%nat)).
  apply bool_decide_ext.
  destruct b; [apply to_upper_ampersand | apply to_lower_ampersand].
Qed.

Lemma acronym_rules_spare_ampersand :
  Forall (λ rule : regex * string,
            uses rule.1 "&" = false ∧ "&"%char ∉ list_ascii_of_string rule.2)
         (acronym_rule <$> acronyms).
Proof.
  cbn [acronyms fmap list_fmap].
  repeat (constructor;
          [split; [vm_compute; reflexivity
                  |apply (bool_decide_unpack (_ ∉ _)); vm_compute; exact I]|]).
  constructor.
Qed.

(** Title-casing and the acronyms leave every ["&"] where it is. *)
Lemma with_acronyms_ampersands x :
  occurrences "&" (list_ascii_of_string (with_acronyms (titlecased x)))
  = occurrences "&" (list_ascii_of_string x).
Proof.
  unfold with_acronyms, titlecased, chars.
  rewrite !list_ascii_of_string_of_list_ascii.
  rewrite (apply_rules_occurrences _ _ acronym_rules_spare_ampersand).
  apply titlecase_from_ampersands.
Qed.

(** ** The word [and] under the rules *)

Lemma token_safe_facts r :
  token_safe r = true →
  nullable r = false ∧ first r " " = false ∧ first r "n" = false
  ∧ first r "d" = false ∧ final r " " = false ∧ follows r " " "a" = false.
Proof.
  unfold token_safe. rewrite !andb_true_iff, !negb_true_iff. tauto.
Qed.

(** When no empty text matches and no word starts with [a], the rule
    finds nothing at the [a]. *)
Lemma keeps_and_first r rep :
  nullable r = false → first r "a" = false → keeps_and r rep.
Proof. intros Hn Hf s. left. by apply no_match_at. Qed.

(** A rule that cannot touch the word leaves it where it stands: what is
    written before it comes from the text before it, and the scan goes on
    behind it. *)
Lemma replace_from_token r rep :
  token_safe r = true → keeps_and r rep →
  ∀ p q skip prev, (skip ≤ length p)%nat →
  ∃ p',
    replace_from r rep skip prev
      (p ++ list_ascii_of_string " and" ++ " "%char :: q)
    = p' ++ list_ascii_of_string " and"
         ++ " "%char :: replace_from r rep 0 (Some " "%char) q.
Proof.
  intros (Hn & Hsp & Hfn & Hfd & Hl & Hp)%token_safe_facts Hand.
  induction p as [|c p IH]; intros q skip prev Hskip.
  - exists []. destruct skip; [|simpl in Hskip; lia].
    cbn [app list_ascii_of_string replace_from].
    rewrite (no_match_at r " ") by done.
    destruct (Hand q) as [E|[E ->]];
      cbn [app list_ascii_of_string] in E; rewrite E.
    + rewrite (no_match_at r "n"), (no_match_at r "d"),
        (no_match_at r " ") by done. done.
    + cbn [app list_ascii_of_string replace_from].
      by rewrite (no_match_at r " ") by done.
  - cbn [app replace_from]. destruct skip as [|n].
    + destruct (match_at r prev _) as [[|n]|] eqn:E.
      * destruct (IH q 0%nat (Some c)) as [p' ->]; [lia|].
        exists (rep ++ c :: p'). by rewrite <- (assoc_L (++)).
      * apply (match_within r " " "a" prev (c :: p)) in E; [|done..].
        destruct (IH q n (Some c)) as [p' ->]; [simpl in E; lia|].
        exists (rep ++ p'). by rewrite <- (assoc_L (++)).
      * destruct (IH q 0%nat (Some c)) as [p' ->]; [lia|].
        by exists (c :: p').
    + destruct (IH q n (Some c)) as [p' ->]; [simpl in Hskip; lia|].
      by exists p'.
Qed.

Lemma rule_keeps_spelled r rep :
  token_safe r = true → keeps_and r rep →
  ∀ n s, spelled n s → ∀ prev, spelled n (replace_from r rep 0 prev s).
Proof.
  intros Hsafe Hand n s. induction 1 as [s|n p q _ IH]; intros prev.
  - constructor.
  - destruct (replace_from_token r rep Hsafe Hand p q 0 prev) as [p' ->];
      [lia|].
    constructor. specialize (IH None). cbn [replace_from] in IH.
    apply token_safe_facts in Hsafe as (Hn & Hsp & _).
    by rewrite (no_match_at r " ") in IH by done.
Qed.

(** *** The collapse of white space *)

Lemma strip_start_app space x y :
  strip_start space (x ++ y)
  = if forallb space x then strip_start space y else strip_start space x ++ y.
Proof.
  induction x as [|c x IH]; [done|]. cbn [app strip_start forallb].
  destruct (space c); [by rewrite IH|done].
Qed.

Lemma strip_start_length space s :
  (length (strip_start space s) ≤ length s)%nat.
Proof.
  destruct (strip_start_suffix space s) as [pre Hpre].
  apply (f_equal length) in Hpre. rewrite length_app in Hpre. lia.
Qed.

Lemma collapse_token rep t : ∀ n p prev,
  (length p ≤ n)%nat →
  ∃ p',
    replace_from (Plus (Chr is_space)) rep 0 prev
      (p ++ list_ascii_of_string " and" ++ t)
    = p' ++ rep ++ list_ascii_of_string "and"
         ++ replace_from (Plus (Chr is_space)) rep 0 None t.
Proof.
  assert (Hand : ∀ prev,
    replace_from (Plus (Chr is_space)) rep 0 prev
      (list_ascii_of_string "and" ++ t)
    = list_ascii_of_string "and"
      ++ replace_from (Plus (Chr is_space)) rep 0 None t).
  { intros prev. cbn [list_ascii_of_string app].
    by rewrite !replace_from_spaces_cons. }
  induction n as [|n IH]; intros p prev Hlen.
  - destruct p; [|simpl in Hlen; lia]. exists [].
    cbn [app list_ascii_of_string]. rewrite replace_from_spaces_cons.
    cbn [is_space in_range]. by rewrite Hand.
  - destruct p as [|c p].
    { apply (IH [] prev). simpl. lia. }
    cbn [app]. rewrite replace_from_spaces_cons. simpl in Hlen.
    destruct (is_space c).
    + rewrite strip_start_app. destruct (forallb is_space p).
      * exists []. cbn [app list_ascii_of_string strip_start].
        by rewrite Hand.
      * destruct (IH (strip_start is_space p) None) as [p' ->].
        { pose proof (strip_start_length is_space p). lia. }
        exists (rep ++ p'). by rewrite <- (assoc_L (++)).
    + destruct (IH p None) as [p' ->]; [lia|]. by exists (c :: p').
Qed.

Lemma collapse_keeps_spelled n s :
  spelled n s →
  ∀ prev, spelled n (replace_from (Plus (Chr is_space)) [" "%char] 0 prev s).
Proof.
  induction 1 as [s|n p q _ IH]; intros prev.
  - constructor.
  - destruct (collapse_token [" "%char] (" "%char :: q) (length p) p prev)
      as [p' ->]; [lia|].
    specialize (IH None). rewrite replace_from_spaces_cons in IH |- *.
    cbn [is_space in_range Ascii.eqb orb] in IH |- *.
    change (list_ascii_of_string "and") with ["a"; "n"; "d"]%char.
    change (p' ++ [" "%char] ++ ["a"; "n"; "d"]%char ++ [" "%char] ++ ?x)
      with (p' ++ list_ascii_of_string " and" ++ " "%char :: x).
    by constructor.
Qed.

(** *** The chain of rules *)

Lemma spelled_cons n c s : spelled n s → spelled n (c :: s).
Proof.
  destruct 1 as [s|n p q Hq]; [constructor|].
  by apply (spelled_S n (c :: p)).
Qed.

Lemma ampersands_spelled_out_spelled l :
  spelled (occurrences "&" l) (ampersands_spelled_out l).
Proof.
  induction l as [|c l IH]; [constructor|].
  unfold ampersands_spelled_out. rewrite bind_cons, occurrences_cons.
  fold (ampersands_spelled_out l).
  destruct (Ascii.eqb_spec c "&") as [->|Hc].
  - rewrite bool_decide_eq_true_2 by done.
    apply (spelled_S _ []). by apply spelled_cons.
  - rewrite bool_decide_eq_false_2 by done. by apply spelled_cons.
Qed.

Lemma later_substitutions_keep_and :
  Forall (λ rule : regex * string,
            ∀ n s prev, spelled n s →
              spelled n (replace_from rule.1 (list_ascii_of_string rule.2)
                           0 prev s))
         (tail substitutions).
Proof.
  unfold substitutions; cbn [tail].
  repeat (constructor;
    [intros n s prev Hs; cbn [fst snd];
     first
       [ by apply collapse_keeps_spelled
       | apply rule_keeps_spelled;
         [vm_compute; reflexivity
         |first [ apply keeps_and_first; vm_compute; reflexivity
                | intros t; left; vm_compute; reflexivity
                | intros t; right; split; [|reflexivity];
                  unfold match_at; cbn; f_equal; lia ]
         |done] ]|]).
  constructor.
Qed.

Lemma apply_rules_spelled rules n :
  Forall (λ rule : regex * string,
            ∀ n s prev, spelled n s →
              spelled n (replace_from rule.1 (list_ascii_of_string rule.2)
                           0 prev s)) rules →
  ∀ s, spelled n s → spelled n (apply_rules rules s).
Proof.
  unfold apply_rules. induction 1 as [|rule rules Hrule _ IH]; intros s Hs.
  - done.
  - cbn [foldl]. apply IH. by apply Hrule.
Qed.

(** *** Counting the words *)

Lemma and_count_tail b c l :
  (and_count (Ascii.eqb c " ") l ≤ and_count b (c :: l))%nat.
Proof. cbn [and_count]. lia. Qed.

Lemma and_count_behind b u rest :
  (and_count true rest ≤ and_count b (u ++ " "%char :: rest))%nat.
Proof.
  revert b. induction u as [|c u IH]; intros b.
  - apply (and_count_tail b " "%char).
  - cbn [app]. etransitivity; [apply IH|]. apply and_count_tail.
Qed.

Lemma spelled_and_count n s : spelled n s → ∀ b, (n ≤ and_count b s)%nat.
Proof.
  induction 1 as [s|n p q _ IH]; intros b; [lia|].
  cbn [list_ascii_of_string app].
  etransitivity; [|apply and_count_behind].
  cbn [and_count is_and_word andb Ascii.eqb Bool.eqb].
  specialize (IH false). cbn in IH |- *. lia.
Qed.

Lemma strip_start_spaces space s :
  ∃ pre, s = pre ++ strip_start space s ∧ forallb space pre = true.
Proof.
  induction s as [|c s (pre & IH & Hpre)]; [by exists []|]. cbn [strip_start].
  destruct (space c) eqn:Hc; [|by exists []].
  exists (c :: pre). cbn [forallb app]. by rewrite <- IH, Hc.
Qed.

Lemma forallb_reverse {A} (p : A → bool) l :
  forallb p (reverse l) = forallb p l.
Proof.
  apply eq_true_iff_eq. rewrite <- !Is_true_true, !forallb_True.
  apply Forall_reverse.
Qed.

Lemma strip_infix_spaces space l :
  ∃ pre post,
    l = pre ++ strip space l ++ post
    ∧ forallb space pre = true ∧ forallb space post = true.
Proof.
  unfold strip. destruct (strip_start_spaces space l) as (pre & Hpre & Hsp).
  destruct (strip_start_spaces space (reverse (strip_start space l)))
    as (post & Hpost & Hsp').
  exists pre, (reverse post). rewrite forallb_reverse.
  split_and!; [|done..].
  by rewrite <- reverse_app, <- Hpost, reverse_involutive.
Qed.

Lemma is_and_word_space c l : is_space c = true → is_and_word (c :: l) = false.
Proof.
  intros Hc. destruct l as [|c2 [|c3 l]]; [done..|]. cbn [is_and_word].
  destruct (Ascii.eqb_spec c "a") as [->|]; [done|done].
Qed.

Lemma and_count_spaces b l : forallb is_space l = true → and_count b l = 0%nat.
Proof.
  revert b. induction l as [|c l IH]; intros b; [done|].
  cbn [forallb and_count]. intros [Hc Hl]%andb_prop.
  by rewrite is_and_word_space, andb_false_r, IH.
Qed.

Lemma and_count_before b pre l :
  forallb is_space pre = true →
  (and_count b (pre ++ l) ≤ and_count true l)%nat.
Proof.
  revert b. induction pre as [|c pre IH]; intros b.
  - intros _. destruct l as [|c l]; [done|]. cbn [app and_count].
    destruct b; [done|]. cbn [andb]. lia.
  - cbn [forallb app and_count]. intros [Hc Hpre]%andb_prop.
    rewrite is_and_word_space, andb_false_r by done. by apply IH.
Qed.

Lemma space_is_no_letter c x :
  is_space c = true → is_space x = false → Ascii.eqb c x = false.
Proof. intros Hc Hx. destruct (Ascii.eqb_spec c x) as [->|]; congruence. Qed.

Lemma is_and_word_app l post :
  forallb is_space post = true →
  is_and_word (l ++ post) = true → is_and_word l = true.
Proof.
  intros Hpost.
  destruct l as [|c1 [|c2 [|c3 [|c4 l]]]]; cbn [app].
  - destruct post as [|c post]; [done|]. cbn [forallb] in Hpost.
    apply andb_prop in Hpost as [Hc _]. by rewrite is_and_word_space.
  - destruct post as [|c2 [|c3 post]]; [done..|]. cbn [forallb] in Hpost.
    apply andb_prop in Hpost as [Hc2 _]. cbn [is_and_word].
    by rewrite (space_is_no_letter c2 "n"), andb_false_r by done.
  - destruct post as [|c3 post]; [done|]. cbn [forallb] in Hpost.
    apply andb_prop in Hpost as [Hc3 _]. cbn [is_and_word].
    by rewrite (space_is_no_letter c3 "d"), andb_false_r by done.
  - cbn [is_and_word]. rewrite !andb_true_iff. tauto.
  - done.
Qed.

Lemma and_count_after b l post :
  forallb is_space post = true →
  (and_count b (l ++ post) ≤ and_count b l)%nat.
Proof.
  intros Hpost. revert b. induction l as [|c l IH]; intros b.
  - cbn [app]. by rewrite and_count_spaces.
  - change ((c :: l) ++ post) with (c :: l ++ post). cbn [and_count].
    specialize (IH (Ascii.eqb c " ")).
    pose proof (is_and_word_app (c :: l) post Hpost) as Hword.
    change ((c :: l) ++ post) with (c :: l ++ post) in Hword.
    destruct b; cbn [andb]; [|lia].
    destruct (is_and_word (c :: l ++ post)); [|lia].
    rewrite Hword by done. lia.
Qed.

(** Stripping loses no word. *)
Lemma and_count_strip b l :
  (and_count b l ≤ and_count true (strip_chars l))%nat.
Proof.
  unfold strip_chars.
  destruct (strip_infix_spaces is_space l) as (pre & post & Hl & Hpre & Hpost).
  rewrite Hl at 1. etransitivity; [by apply and_count_before|].
  by apply and_count_after.
Qed.

(** The dictionary rewrites no text with the word in it. *)
Lemma replace_and_words mapping s :
  Forall (λ kv : string * string, and_words kv.1 = 0%nat) mapping →
  (and_words s ≤ and_words (replace mapping s))%nat.
Proof.
  induction 1 as [|[k v] mapping Hk _ IH]; [done|]. cbn [replace].
  destruct (String.eqb_spec k s) as [<-|]; [|done].
  cbn [fst] in Hk. rewrite Hk. lia.
Qed.

Lemma residual_corrections_without_and :
  Forall (λ kv : string * string, and_words kv.1 = 0%nat) residual_corrections.
Proof. apply (bool_decide_unpack (Forall _ _)). by vm_compute. Qed.

(** Every ["&"] of the scraped value is a word [and] of the normal form. *)
Lemma normalize_and_words x :
  (occurrences "&" (list_ascii_of_string x) ≤ and_words (normalize x))%nat.
Proof.
  unfold normalize, substituted.
  etransitivity;
    [|apply replace_and_words, residual_corrections_without_and].
  unfold and_words, chars. rewrite list_ascii_of_string_of_list_ascii.
  etransitivity; [|apply (and_count_strip true)].
  apply spelled_and_count. rewrite substitutions_head.
  unfold apply_rules at 1. cbn [foldl fst snd]. rewrite ampersand_rule.
  apply (apply_rules_spelled _ _ later_substitutions_keep_and).
  rewrite <- with_acronyms_ampersands.
  apply ampersands_spelled_out_spelled.
Qed.
(** ** The ampersand in the normal form *)

(** C10. The normal form never contains ["&"]: the first substitution
    spells every ["&"] out as [" and "], and nothing after it brings one
    back.  No later rule touches the word: for every ["&"] of the scraped
    value the normal form has a word [and] in lower case with a space or an
    end of the text on either side, and white space occurs in a normal
    form only as single spaces. *)
Theorem normalized_application_has_no_ampersand :
  (∀ s, "&"%char ∉ list_ascii_of_string (normalize s))
  ∧ (∀ l, apply_rules substitutions l
          = apply_rules (tail substitutions) (ampersands_spelled_out l))
  ∧ (∀ l, "&"%char ∉ ampersands_spelled_out l)
  ∧ (∀ s, single_spaced (list_ascii_of_string (normalize s)) = true)
  ∧ (∀ s, (occurrences "&" (list_ascii_of_string s)
           ≤ and_words (normalize s))%nat)
  ∧ normalize "Nuts & Bolts" = "Nuts and Bolts"
  ∧ normalize "WIRE&CABLE INSUL." = "Wire and Cable Insul"
  ∧ normalize "r & d" = "R and D"
  ∧ normalize "3 & d" = "3 and D"
  ∧ normalize "&&" = "and and".
Proof.
  assert (Hrules : ∀ l, apply_rules substitutions l
            = apply_rules (tail substitutions) (ampersands_spelled_out l)).
  { intros l. rewrite substitutions_head at 1.
    unfold apply_rules at 1. cbn [foldl fst snd]. by rewrite ampersand_rule. }
  split_and!; [|done|apply ampersands_spelled_out_free
               |apply normalized_single_spaced|apply normalize_and_words
               |by vm_compute..].
  intros s. unfold normalize, substituted.
  destruct (replace_cases residual_corrections
              (chars (λ l, strip_chars (apply_rules substitutions l))
                     (with_acronyms (titlecased s)))) as [-> | Hin].
  - unfold chars at 1. rewrite list_ascii_of_string_of_list_ascii.
    apply cleaned_has_no_ampersand.
  - eapply Forall_forall in Hin; [|apply residual_corrections_free]. done.
Qed.

(** * Further properties of the script *)

(** ** The loop and [main]: requests and files *)

Lemma scrape_pages_requests L : ∀ fuel page_num df_list w,
  ∃ k, (k ≤ fuel)%nat ∧
       (scrape_pages L fuel page_num df_list w).2
       = requested (seq page_num k) w.
Proof.
  induction fuel as [|fuel IH]; intros p acc w.
  - exists 0%nat. split; [done|]. simpl. by rewrite requested_nil.
  - rewrite scrape_pages_step. destruct (page L p) as [[df|]|e].
    + destruct (IH (S p) (acc ++ [df]) (requested [p] w)) as (k & Hk & ->).
      exists (S k). split; [lia|]. by rewrite requested_app.
    + exists 1%nat. split; [lia|done].
    + exists 1%nat. split; [lia|done].
Qed.

Lemma scrape_nasa_outgassing_world L fuel w :
  (scrape_nasa_outgassing L fuel w).2 = (scrape_pages L fuel 1 [] w).2.
Proof.
  unfold scrape_nasa_outgassing, fetch_all, mbind, io_bind, lift.
  destruct (scrape_pages L fuel 1 [] w) as [[df_list|e] w']; [|done].
  destruct (pl_concat L df_list) as [df|e]; [|done]. simpl.
  destruct (each_row add_classification (unique_rows df)) as [df1|e];
    [|done]. simpl.
  destruct (clean_application df1) as [df2|e]; [|done]. simpl.
  by destruct (reorder_columns df2).
Qed.

(** X1. Whatever the server answers, [scrape_nasa_outgassing] requests
    the pages 1, 2, ..., k in this order, each once, for some k within the
    loop bound, and writes no file. *)
Theorem requests_are_consecutive L fuel w :
  ∃ k, (k ≤ fuel)%nat
       ∧ requests (scrape_nasa_outgassing L fuel w).2 = requests w ++ seq 1 k
       ∧ files (scrape_nasa_outgassing L fuel w).2 = files w.
Proof.
  destruct (scrape_pages_requests L fuel 1 [] w) as (k & Hk & Hw).
  exists k. rewrite scrape_nasa_outgassing_world, Hw. done.
Qed.

(** X2. [main] writes the files in the order csv, parquet, xlsx, each
    with the frame that [scrape_nasa_outgassing] returned, and stops at the
    first write that raises: the files written are the first [k] of the
    three, [main] returns normally exactly when all three are written, and
    otherwise ends with the error of the write that failed.  When the
    scrape fails, [main] fails with the same error and writes nothing. *)
Theorem main_writes_files_in_order L fuel w :
  match scrape_nasa_outgassing L fuel w with
  | (Ok df, w') =>
      let outs := [("output/nasa_outgassing.csv", df);
                   ("output/nasa_outgassing.pq", df);
                   ("output/nasa_outgassing.xlsx", df)] in
      ∃ k, (k ≤ 3)%nat
        ∧ (main L fuel w).2
          = {| requests := requests w'; files := files w' ++ take k outs |}
        ∧ Forall (λ out, write_file L out.1 out.2 = Ok ()) (take k outs)
        ∧ match outs !! k with
          | Some out => (main L fuel w).1 = write_file L out.1 out.2
                        ∧ ∃ e, write_file L out.1 out.2 = Err e
          | None => (main L fuel w).1 = Ok ()
          end
  | (Err e, w') => main L fuel w = (Err e, w')
  end.
Proof.
  destruct (scrape_nasa_outgassing L fuel w) as [[df|e] w'] eqn:Hrun;
    unfold main, mbind, io_bind; rewrite Hrun; [|done].
  cbn zeta. unfold write.
  destruct (write_file L "output/nasa_outgassing.csv" df) as [[]|e1] eqn:H1.
  2: { exists 0%nat. destruct w'. cbn. rewrite app_nil_r, ?H1.
       split_and!; [lia|done|apply Forall_nil_2|done|eauto]. }
  destruct (write_file L "output/nasa_outgassing.pq" df) as [[]|e2] eqn:H2.
  2: { exists 1%nat. cbn. rewrite ?H2.
       split_and!; [lia|done| |done|eauto].
       by repeat (constructor; [done|]). }
  destruct (write_file L "output/nasa_outgassing.xlsx" df) as [[]|e3] eqn:H3.
  2: { exists 2%nat. cbn. rewrite ?H3, <- !(assoc_L (++)).
       split_and!; [lia|done| |done|eauto].
       by repeat (constructor; [done|]). }
  exists 3%nat. cbn. rewrite <- !(assoc_L (++)).
  split_and!; [lia|done| |done].
  by repeat (constructor; [done|]).
Qed.

(** X3. Any failure of a page, be it the transport, the parser or a cast,
    ends the run with that error: when pages 1 to n gave a frame and page
    n+1 fails, [main] returns the error of page n+1, has requested the pages
    1 to n+1 and nothing after, and has written no file. *)
Theorem page_failure_aborts L (dfs : list DataFrame) e fuel w :
  page L <$> seq 1 (length dfs) = (λ df, Ok (Some df)) <$> dfs →
  page L (S (length dfs)) = Err e →
  (length dfs < fuel)%nat →
  main L fuel w = (Err e, requested (seq 1 (S (length dfs))) w).
Proof.
  intros Hpages Herr Hfuel.
  replace fuel with (length dfs + S (fuel - S (length dfs)))%nat by lia.
  unfold main, scrape_nasa_outgassing, fetch_all, mbind, io_bind.
  rewrite scrape_pages_tables, scrape_pages_step by done.
  cbn [Nat.add]. by rewrite Herr, requested_app, <- seq_snoc.
Qed.

Lemma page_failure_aborts_witness :
  main unparsable_second_page 10 empty_world
  = (Err InvalidOperationError, {| requests := [1; 2]; files := [] |}).
Proof.
  apply (page_failure_aborts unparsable_second_page
           (frames_of unparsable_second_page [1]) InvalidOperationError
           10 empty_world).
  - vm_compute. reflexivity.
  - vm_compute. reflexivity.
  - vm_compute. lia.
Defined.

(** ** [do_scrape]: the end-of-data signal *)

(** X4. [do_scrape] returns [None] exactly when the status is no error
    status and the body does not contain ["<table"]: a page with a table
    marker yields a frame or an error, never the end-of-data signal, and an
    error status is raised before the body is looked at. *)
Theorem end_of_data_signal L page_num :
  page L page_num = Ok None ↔
  ¬ (400 ≤ status_code (requests_get L page_num) < 600)%nat
  ∧ contains "<table" (text (requests_get L page_num)) = false.
Proof.
  unfold page, do_scrape, request, mbind, io_bind, lift, raise_for_status;
    cbn -[Nat.leb Nat.ltb contains].
  destruct (Nat.leb_spec 400 (status_code (requests_get L page_num)));
    destruct (Nat.ltb_spec (status_code (requests_get L page_num)) 600);
    cbn -[contains]; try (split; [done | intros [[] _]; lia]).
  all: destruct (contains "<table" (text (requests_get L page_num)));
    cbn -[contains].
  all: try (split; [intros _; split; [lia|done] | done]).
  all: destruct (read_html L _) as [df|]; cbn; [|split; [done|intros [_ ?]; done]].
  all: destruct (shape L df); cbn; split; try done; intros [_ ?]; done.
Qed.

(** ** The classification: which rows fail *)

Lemma Qc_lt_negb_le (a b : Qc) :
  bool_decide (a < b)%Qc = negb (bool_decide (b ≤ a)%Qc).
Proof.
  do 2 case_bool_decide; simpl; try done.
  - exfalso. by eapply Qclt_not_le.
  - exfalso. by apply Qcnot_le_lt in H0.
Qed.

(** X5. A row with both measurements is never labelled [Fail]: it passes,
    or gets Code A, or else Code B.  [Fail] is the label of the rows with a
    missing measurement that rule 3 does not catch: both values null, or
    [RML_Pct] null and [CVCM_Pct] at most 0.1, or [CVCM_Pct] null and
    [RML_Pct] at most 3. *)
Theorem fail_needs_a_missing_measurement :
  (∀ x y,
     SpaceX_Classification (Some x) (Some y) =
     if bool_decide (x ≤ Q2Qc 1)%Qc && bool_decide (y ≤ Q2Qc (1 # 10))%Qc
     then "Pass"
     else if bool_decide (x ≤ Q2Qc 3)%Qc && bool_decide (y ≤ Q2Qc (1 # 10))%Qc
     then "Rationale Code A (up to 2 sq-in)"
     else "Rationale Code B (up to 0.25 sq-in)")
  ∧ (∀ rml cvcm,
       SpaceX_Classification rml cvcm = "Fail" ↔
       match rml, cvcm with
       | None, None => True
       | None, Some y => (y ≤ Q2Qc (1 # 10))%Qc
       | Some x, None => (x ≤ Q2Qc 3)%Qc
       | Some _, Some _ => False
       end).
Proof.
  assert (Hboth : ∀ x y,
     SpaceX_Classification (Some x) (Some y) =
     if bool_decide (x ≤ Q2Qc 1)%Qc && bool_decide (y ≤ Q2Qc (1 # 10))%Qc
     then "Pass"
     else if bool_decide (x ≤ Q2Qc 3)%Qc && bool_decide (y ≤ Q2Qc (1 # 10))%Qc
     then "Rationale Code A (up to 2 sq-in)"
     else "Rationale Code B (up to 0.25 sq-in)").
  { intros x y. unfold SpaceX_Classification, lit, le3, gt3.
    rewrite !Qc_lt_negb_le.
    by destruct (bool_decide (x ≤ Q2Qc 1)%Qc), (bool_decide (x ≤ Q2Qc 3)%Qc),
      (bool_decide (y ≤ Q2Qc (1 # 10))%Qc). }
  split; [done|]. intros [x|] [y|].
  - rewrite Hboth. by repeat case_match.
  - unfold SpaceX_Classification, lit, le3, gt3. rewrite Qc_lt_negb_le.
    destruct (bool_decide (x ≤ Q2Qc 1)%Qc); case_bool_decide; simpl;
      naive_solver.
  - unfold SpaceX_Classification, lit, le3, gt3. rewrite Qc_lt_negb_le.
    case_bool_decide; simpl; naive_solver.
  - done.
Qed.

(** ** The clean-up does not depend on the case of the input *)

Lemma to_upper_to_lower c : to_upper (to_lower c) = to_upper c.
Proof. by destruct c as [[] [] [] [] [] [] [] []]. Qed.

Lemma to_lower_to_upper c : to_lower (to_upper c) = to_lower c.
Proof. by destruct c as [[] [] [] [] [] [] [] []]. Qed.

Lemma titlecase_from_to_lower s : ∀ b,
  titlecase_from b (to_lower <$> s) = titlecase_from b s.
Proof.
  induction s as [|c s IH]; intros b; [done|]. cbn [fmap list_fmap titlecase_from].
  change (list_fmap _ _ to_lower s) with (to_lower <$> s).
  rewrite is_alphanumeric_to_lower, IH.
  destruct b; by rewrite ?to_upper_to_lower, ?to_lower_idemp.
Qed.

Lemma titlecase_from_to_upper s : ∀ b,
  titlecase_from b (to_upper <$> s) = titlecase_from b s.
Proof.
  induction s as [|c s IH]; intros b; [done|]. cbn [fmap list_fmap titlecase_from].
  change (list_fmap _ _ to_upper s) with (to_upper <$> s).
  rewrite is_alphanumeric_to_upper, IH.
  destruct b; by rewrite ?to_lower_to_upper, ?to_upper_idemp.
Qed.

(** X6. The normal form of a value is the normal form of the value
    written in lower case, and of the value written in upper case: two
    scraped values that differ only in the case of their letters are
    unified. *)
Theorem normalize_ignores_case x :
  normalize (chars (fmap to_lower) x) = normalize x
  ∧ normalize (chars (fmap to_upper) x) = normalize x.
Proof.
  unfold normalize, titlecased. rewrite !chars_chars.
  unfold chars, compose, to_titlecase.
  by rewrite titlecase_from_to_lower, titlecase_from_to_upper.
Qed.

(** ** The clean-up as two column writes *)

(** X7. The clean-up of the frame (title-casing, the loop over the
    acronyms, the chain of substitutions) is two column writes on every
    row, with the same failures: [Raw_Application] receives the scraped
    cell and [Application] its normal form, a null staying null in both;
    every other column is left alone.  A row fails exactly when
    [Application] is no column of it or holds no string. *)
Theorem clean_application_is_two_writes :
  (∀ df, clean_application df = each_row application_writes df)
  ∧ ∀ r,
      match col "Application" r with
      | Ok (Str s) =>
          application_writes r
          = Ok (set "Application" (Str (normalize s))
                  (set "Raw_Application" (Str s) r))
      | Ok Null =>
          application_writes r
          = Ok (set "Application" Null (set "Raw_Application" Null r))
      | Ok _ => application_writes r = Err (SchemaError "Application")
      | Err e => application_writes r = Err e
      end.
Proof.
  split; [apply clean_application_writes|].
  intros r. unfold application_writes, col_str.
  destruct (col "Application" r) as [[|s|q|n]|e]; done.
Qed.

(** ** Re-ordering keeps every column *)

Lemma unique_idemp `{EqDecision A} (l : list A) : unique (unique l) = unique l.
Proof. apply unique_NoDup, NoDup_unique_from. Qed.

Lemma elem_of_unique `{EqDecision A} (l : list A) x : x ∈ unique l ↔ x ∈ l.
Proof. unfold unique. rewrite elem_of_unique_from, elem_of_nil. tauto. Qed.

(** The order of the columns for any list of names. *)
Lemma all_cols_unique df_columns :
  all_cols df_columns
  = priority ++ filter (λ c, c ∉ priority) (unique df_columns).
Proof.
  rewrite <- (all_cols_NoDup (unique df_columns)) by apply NoDup_unique_from.
  unfold all_cols, other_cols, OrderedSet. by rewrite unique_idemp.
Qed.

Lemma select_inv names : ∀ r r',
  select names r = Ok r' →
  columns r' = names ∧ ∀ name v, (name, v) ∈ r' → get name r = Some v.
Proof.
  unfold select, columns.
  induction names as [|n names IH]; intros r r'.
  - intros [= <-]. split; [done|]. by intros ?? ?%elem_of_nil.
  - cbn [mapM]. intros (kv & Hkv & (r1 & Hr1 & [= <-])%bind_Ok)%bind_Ok.
    apply bind_Ok in Hkv as (v & Hv & [= <-]).
    apply IH in Hr1 as [Hcols Hvals]. split; [by rewrite fmap_cons, Hcols|].
    intros name w [[= -> ->]|?]%elem_of_cons; [|by apply Hvals].
    unfold col in Hv. by destruct (get n r); simplify_eq.
Qed.

Lemma select_keeps_values names r r' :
  select names r = Ok r' → columns r ⊆ names →
  ∀ name, get name r' = get name r.
Proof.
  intros [Hcols Hvals]%select_inv Hsub name.
  destruct (decide (name ∈ columns r')) as [Hin|Hin].
  - apply get_column in Hin as [v Hv]. rewrite Hv. symmetry.
    by apply Hvals, get_elem_of.
  - rewrite (get_None_not_column name r') by done. symmetry.
    apply get_None_not_column. intros Hr. apply Hin. rewrite Hcols.
    by apply Hsub.
Qed.

Lemma columns_all_cols (df_columns : list string) :
  df_columns ⊆ all_cols df_columns.
Proof.
  intros name Hname. rewrite all_cols_unique.
  destruct (decide (name ∈ priority)); apply elem_of_app; [by left|right].
  apply list_elem_of_filter. split; [done|]. by apply elem_of_unique.
Qed.

(** X8. When the re-ordering of the columns succeeds, the frame had all
    ten priority columns, the new header has the priority columns first and
    the other columns after them in their original order (it is the list
    that [reordered_columns] gives), every row has the columns of the new
    header, and every column reads as before: nothing is dropped, added or
    changed. *)
Theorem reorder_columns_keeps_values df df' :
  reorder_columns df = Ok df' →
  header df' = priority ++ filter (λ c, c ∉ priority) (unique (header df))
  ∧ reordered_columns (header df) = Ok (header df')
  ∧ Forall2 (λ r r', columns r' = header df' ∧ ∀ name, get name r' = get name r)
      (rows df) (rows df')
  ∧ priority ⊆ header df.
Proof.
  unfold reorder_columns. intros (Hwf & (h & Hh & Hhd) & Hrows)%each_row_inv.
  pose proof (select_keeps_values _ _ _ Hh) as Hget.
  rewrite columns_schema_row in Hget.
  specialize (Hget (columns_all_cols _)).
  assert (Hcols : header df' = all_cols (header df)).
  { rewrite Hhd. by apply select_inv in Hh as [-> _]. }
  split_and!.
  - by rewrite Hcols, all_cols_unique.
  - unfold reordered_columns. fold (schema_row (header df)).
    rewrite Hh. simpl. by rewrite Hhd.
  - rewrite Forall_forall in Hwf. apply Forall2_same_length_lookup.
    split; [by eapply Forall2_length|]. intros i r r' Hr Hr'.
    pose proof (Forall2_lookup_lr _ _ _ _ _ _ Hrows Hr Hr') as Hsel.
    cbn beta in Hsel.
    assert (Hc : columns r = header df) by by eapply Hwf, list_elem_of_lookup_2.
    split.
    + rewrite Hcols. by apply select_inv in Hsel as [-> _].
    + apply (select_keeps_values _ _ _ Hsel). rewrite Hc.
      apply columns_all_cols.
  - intros name Hname.
    assert (Hin : name ∈ columns h).
    { rewrite <- Hhd, Hcols, all_cols_unique. apply elem_of_app. by left. }
    apply get_column in Hin as [v Hv]. rewrite Hget in Hv.
    apply get_Some_column in Hv. by rewrite columns_schema_row in Hv.
Qed.

Lemma reorder_columns_keeps_values_witness :
  header sample_final
  = priority ++ filter (λ c, c ∉ priority) (unique (header sample_classified))
  ∧ reordered_columns (header sample_classified) = Ok (header sample_final)
  ∧ Forall2 (λ r r', columns r' = header sample_final
                     ∧ ∀ name, get name r' = get name r)
      (rows sample_classified) (rows sample_final)
  ∧ priority ⊆ header sample_classified.
Proof.
  apply (reorder_columns_keeps_values sample_classified sample_final).
  vm_compute. reflexivity.
Defined.

(** ** From the scraped rows to the rows returned *)

Lemma add_classification_inv r r1 :
  add_classification r = Ok r1 →
  ∃ rml cvcm,
    col_dec "RML_Pct" r = Ok rml ∧ col_dec "CVCM_Pct" r = Ok cvcm ∧
    r1 = set "SpaceX_Classification" (Str (SpaceX_Classification rml cvcm)) r.
Proof.
  intros (v & Hv & ->)%with_columns_1.
  apply bind_Ok in Hv as (rml & Hrml & Hv).
  apply bind_Ok in Hv as (cvcm & Hcvcm & [= <-]). eauto.
Qed.

(** X9. The frame returned has one row for each distinct scraped row, in
    the same order.  In each, [Application] is the normal form of the
    scraped value, [Raw_Application] the scraped value, and
    [SpaceX_Classification] the label of the row's [RML_Pct] and
    [CVCM_Pct]; every other column reads as it was scraped, and the
    columns, which are those of the header, start with the ten priority
    columns. *)
Theorem returned_rows L fuel w df w' :
  scrape_nasa_outgassing L fuel w = (Ok df, w') →
  ∃ d, fetch_all L fuel w = (Ok d, w') ∧
    Forall2
      (λ r r',
         (∃ a rml cvcm,
            col_str "Application" r = Ok a ∧
            col_dec "RML_Pct" r = Ok rml ∧ col_dec "CVCM_Pct" r = Ok cvcm ∧
            get "Application" r' = Some (of_str (normalize <$> a)) ∧
            get "Raw_Application" r' = Some (of_str a) ∧
            get "SpaceX_Classification" r'
            = Some (Str (SpaceX_Classification rml cvcm)))
         ∧ (∀ name,
              name ∉ ["Application"; "Raw_Application"; "SpaceX_Classification"] →
              get name r' = get name r)
         ∧ columns r' = header df
         ∧ ∃ rest, columns r' = priority ++ rest)
      (unique (rows d)) (rows df).
Proof.
  unfold scrape_nasa_outgassing, mbind, io_bind, lift.
  destruct (fetch_all L fuel w) as [[d|e] w1]; [|done].
  destruct (each_row add_classification (unique_rows d)) as [df1|] eqn:H1;
    [|done].
  destruct (clean_application df1) as [df2|] eqn:H2; [|done].
  destruct (reorder_columns df2) as [df3|] eqn:H3; [|done].
  intros [= <- <-]. exists d. split; [done|].
  apply each_row_inv in H1 as (_ & _ & H1). cbn [unique_rows rows] in H1.
  rewrite clean_application_writes in H2.
  apply each_row_inv in H2 as (_ & _ & H2).
  apply each_row_inv in H3 as (Hwf & (h & Hh & Hhd) & H3).
  apply select_inv in Hh as [Hh _]. rewrite Hh in Hhd.
  rewrite Forall_forall in Hwf.
  apply Forall2_same_length_lookup. split.
  { rewrite (Forall2_length _ _ _ H1), (Forall2_length _ _ _ H2).
    by eapply Forall2_length. }
  intros i r r' Hr Hr'.
  destruct (Forall2_lookup_l _ _ _ _ _ H1 Hr) as (r1 & Hr1 & Hc1).
  destruct (Forall2_lookup_l _ _ _ _ _ H2 Hr1) as (r2 & Hr2 & Hc2).
  pose proof (Forall2_lookup_lr _ _ _ _ _ _ H3 Hr2 Hr') as Hsel.
  cbn beta in Hc1, Hc2, Hsel.
  apply add_classification_inv in Hc1 as (rml & cvcm & Hrml & Hcvcm & ->).
  apply application_writes_inv in Hc2 as (a & Ha & ->).
  assert (Hc : columns
                 (set "Application" (of_str (normalize <$> a))
                    (set "Raw_Application" (of_str a)
                       (set "SpaceX_Classification"
                          (Str (SpaceX_Classification rml cvcm)) r)))
               = header df2) by by eapply Hwf, list_elem_of_lookup_2.
  assert (Hget : ∀ name, get name r' = get name
                 (set "Application" (of_str (normalize <$> a))
                    (set "Raw_Application" (of_str a)
                       (set "SpaceX_Classification"
                          (Str (SpaceX_Classification rml cvcm)) r)))).
  { apply (select_keeps_values _ _ _ Hsel). rewrite Hc.
    apply columns_all_cols. }
  apply select_inv in Hsel as [Hcols _].
  rewrite col_str_set_ne in Ha by done.
  split_and!.
  - exists a, rml, cvcm. rewrite !Hget.
    rewrite get_set_eq, (get_set_ne "Application" "Raw_Application") by done.
    rewrite get_set_eq, !(get_set_ne _ "SpaceX_Classification") by done.
    by rewrite get_set_eq.
  - intros name Hname. rewrite Hget.
    rewrite !get_set_ne; [done|..]; intros Heq; apply Hname; rewrite <- Heq;
      apply (bool_decide_unpack (_ ∈ _)); by vm_compute.
  - by rewrite Hhd.
  - rewrite Hcols, all_cols_unique. eauto.
Qed.

Lemma returned_rows_witness :
  ∃ d, fetch_all three_pages 4 empty_world
       = (Ok d, {| requests := [1; 2; 3; 4]; files := [] |}) ∧
    Forall2
      (λ r r',
         (∃ a rml cvcm,
            col_str "Application" r = Ok a ∧
            col_dec "RML_Pct" r = Ok rml ∧ col_dec "CVCM_Pct" r = Ok cvcm ∧
            get "Application" r' = Some (of_str (normalize <$> a)) ∧
            get "Raw_Application" r' = Some (of_str a) ∧
            get "SpaceX_Classification" r'
            = Some (Str (SpaceX_Classification rml cvcm)))
         ∧ (∀ name,
              name ∉ ["Application"; "Raw_Application"; "SpaceX_Classification"] →
              get name r' = get name r)
         ∧ columns r' = header sample_output
         ∧ ∃ rest, columns r' = priority ++ rest)
      (unique (rows d)) (rows sample_output).
Proof.
  apply (returned_rows three_pages 4 empty_world sample_output).
  vm_compute. reflexivity.
Defined.

(** ** Deduplication: when nothing is removed *)

Lemma unique_from_same_length `{EqDecision A} (seen l : list A) :
  length (unique_from seen l) = length l → unique_from seen l = l.
Proof.
  revert seen. induction l as [|x l IH]; intros seen; [done|]. simpl.
  case_bool_decide.
  - intros Hlen. pose proof (sublist_length _ _ (unique_from_sublist seen l)).
    lia.
  - simpl. intros [= Hlen]. f_equal. by apply IH.
Qed.

(** X10. Deduplication is idempotent and never lengthens a frame; the
    number of rows removed, which the script logs, is zero exactly when
    the frame has no two identical rows, and then the frame is returned
    as it is. *)
Theorem unique_removes_nothing_iff_NoDup `{EqDecision A} (l : list A) :
  unique (unique l) = unique l
  ∧ (length (unique l) ≤ length l)%nat
  ∧ ((length l - length (unique l))%nat = 0%nat ↔ NoDup l)
  ∧ (unique l = l ↔ NoDup l).
Proof.
  assert (Hiff : unique l = l ↔ NoDup l).
  { split; [intros <-; apply NoDup_unique_from | apply unique_NoDup]. }
  pose proof (sublist_length _ _ (unique_from_sublist [] l)) as Hlen.
  fold (unique l) in Hlen.
  split_and!; [apply unique_idemp | done | | done].
  rewrite <- Hiff. split.
  - intros ?. apply unique_from_same_length. fold (unique l). lia.
  - intros ->. lia.
Qed.

(** ** Cells of white space *)

Lemma strip_start_nil space l :
  strip_start space l = [] ↔ forallb space l = true.
Proof.
  induction l as [|c l IH]; simpl; [done|].
  destruct (space c); [done|]. simpl. split; done.
Qed.

Lemma strip_nil space l : strip space l = [] ↔ forallb space l = true.
Proof.
  unfold strip. rewrite <- strip_start_nil. split.
  - intros H. apply (f_equal reverse) in H.
    rewrite reverse_involutive, reverse_nil in H.
    apply strip_start_nil in H. rewrite forallb_reverse in H.
    apply strip_start_nil in H. by rewrite strip_start_idemp in H.
  - by intros ->.
Qed.

(** X11. A string cell becomes null exactly when it consists of white
    space only (the empty string included); any other string cell keeps its
    text without the white space around it, and that text is not empty. *)
Theorem strip_cell_null_iff_blank s :
  (strip_cell (Str s) = Null ↔
   forallb is_space (list_ascii_of_string s) = true)
  ∧ (strip_cell (Str s) = Null
     ∨ (strip_cell (Str s) = Str (chars strip_chars s)
        ∧ chars strip_chars s ≠ ""
        ∧ chars strip_chars (chars strip_chars s) = chars strip_chars s)).
Proof.
  unfold strip_cell. cbn zeta.
  destruct (String.eqb (chars strip_chars s) "") eqn:E.
  - apply String.eqb_eq in E. split; [|by left]. split; [intros _|done].
    apply (strip_nil is_space). unfold chars, strip_chars in E.
    apply (f_equal list_ascii_of_string) in E.
    by rewrite list_ascii_of_string_of_list_ascii in E.
  - apply String.eqb_neq in E. split.
    + split; [done|]. intros Hblank%(strip_nil is_space). destruct E.
      unfold chars, strip_chars. by rewrite Hblank.
    + right. split_and!; [done..|].
      rewrite chars_chars. unfold chars, compose, strip_chars.
      by rewrite strip_idemp.
Qed.

(** ** The shaped frame: its columns *)

Lemma rename_one_inv r names r1 :
  rename_one r names = Ok r1 →
  names.1 ∈ columns r
  ∧ r1 = prod_map (λ k, if String.eqb k names.1 then names.2 else k) id <$> r.
Proof. unfold rename_one. case_bool_decide; [|done]. by intros [= <-]. Qed.

Lemma rename_foldl_Err e mapping :
  foldl (λ acc names, r ← acc; rename_one r names) (Err e) mapping = Err e.
Proof. induction mapping as [|names mapping IH]; [done|]. apply IH. Qed.

Lemma columns_prod_map (f : string → string) (g : cell → cell) (r : row) :
  columns (prod_map f g <$> r) = f <$> columns r.
Proof.
  unfold columns. rewrite <- !list_fmap_compose. by apply list_fmap_ext.
Qed.

Lemma values_prod_map (f : string → string) (g : cell → cell) (r : row) :
  (prod_map f g <$> r).*2 = g <$> r.*2.
Proof. rewrite <- !list_fmap_compose. by apply list_fmap_ext. Qed.

(** The renames one after the other, on one name. *)
Lemma rename_foldl_inv mapping : ∀ r r1,
  foldl (λ acc names, r ← acc; rename_one r names) (Ok r) mapping = Ok r1 →
  r1.*2 = r.*2
  ∧ columns r1
    = (λ k, foldl (λ k names, if String.eqb k names.1 then names.2 else k)
                  k mapping) <$> columns r.
Proof.
  induction mapping as [|names mapping IH]; intros r r1.
  - intros [= <-]. split; [done|]. by rewrite list_fmap_id.
  - cbn [foldl]. simpl mbind. destruct (rename_one r names) as [r0|e] eqn:E.
    + apply rename_one_inv in E as [_ ->]. intros [Hv Hc]%IH. split.
      * rewrite Hv, values_prod_map. apply list_fmap_id.
      * rewrite Hc, columns_prod_map, <- list_fmap_compose. done.
    + by rewrite rename_foldl_Err.
Qed.

Lemma header_spec_renames k :
  tidy_name
    (foldl (λ k names, if String.eqb k names.1 then names.2 else k) k
       [("TML %", "TML_Pct"); ("WVR", "WVR_Pct"); ("CVCM", "CVCM_Pct");
        ("Mfr.", "Manufacturer")])
  = header_spec k.
Proof.
  unfold header_spec. cbn [foldl fst snd].
  destruct (String.eqb k "TML %") eqn:E1; [done|].
  destruct (String.eqb k "WVR") eqn:E2; [done|].
  destruct (String.eqb k "CVCM") eqn:E3; [done|].
  by destruct (String.eqb k "Mfr.") eqn:E4.
Qed.

Lemma cast_cell_inv L cells name r r' :
  cast_cell L cells name r = Ok r' →
  (∃ o, col_dec name r' = Ok o)
  ∧ (∀ name', name ≠ name' → get name' r' = get name' r)
  ∧ columns r' = columns r
  ∧ ∀ P : cell → Prop, (∀ q, P (Dec q)) → Forall P r.*2 → Forall P r'.*2.
Proof.
  unfold cast_cell, col. destruct (get name r) as [c|] eqn:Hget; [|done].
  simpl. destruct c as [|s|q|n]; try done.
  - intros [= <-]. split_and!; try done.
    exists None. unfold col_dec, col. by rewrite Hget.
  - destruct (to_decimal L cells s) as [q|]; [|done]. intros [= <-]. split_and!.
    + exists (Some q). unfold col_dec, col. by rewrite get_set_eq.
    + intros name' Hne. by apply get_set_ne.
    + apply columns_set_present. by eapply get_Some_column.
    + intros P HP Hr. by apply values_set.
  - intros [= <-]. split_and!; try done.
    exists (Some q). unfold col_dec, col. by rewrite Hget.
Qed.

Lemma cast_year_inv L r v :
  cast_year L r = Ok v →
  "Year" ∈ columns r ∧ (v = Null ∨ ∃ n, v = U16 n).
Proof.
  unfold cast_year, col. destruct (get "Year" r) as [c|] eqn:Hget; [|done].
  simpl. intros Hv. split; [by eapply get_Some_column|].
  destruct c as [|s|q|n]; try done.
  - injection Hv as <-. by left.
  - destruct (to_year L s) as [n|]; [|done]. injection Hv as <-. eauto.
Qed.

Lemma no_duplicate_columns_inv r r' :
  no_duplicate_columns r = Ok r' → r' = r ∧ NoDup (columns r).
Proof. unfold no_duplicate_columns. case_bool_decide; [|done]. by intros [= <-]. Qed.

(** The steps of [shape] on one row, taken apart. *)
Lemma shape_row_inv L c3 c4 c5 r r' :
  shape_row L c3 c4 c5 r = Ok r' →
  ∃ r1 r2 r3 r4 r5 year tml wvr,
    foldl (λ acc names, r ← acc; rename_one r names)
      (Ok (prod_map id strip_cell <$> r))
      [("TML %", "TML_Pct"); ("WVR", "WVR_Pct"); ("CVCM", "CVCM_Pct");
       ("Mfr.", "Manufacturer")] = Ok r1
    ∧ r2 = prod_map tidy_name id <$> r1 ∧ NoDup (columns r2)
    ∧ cast_cell L c3 "TML_Pct" r2 = Ok r3
    ∧ cast_cell L c4 "WVR_Pct" r3 = Ok r4
    ∧ cast_cell L c5 "CVCM_Pct" r4 = Ok r5
    ∧ cast_year L r5 = Ok year
    ∧ r' = set "RML_Pct" (of_dec (RML_Pct tml wvr)) (set "Year" year r5).
Proof.
  unfold shape_row, rename, rename_all. rewrite result_bind_Ok. intros H.
  apply bind_Ok in H as (r1' & Hr1 & H).
  apply bind_Ok in Hr1 as (r1 & Hr1 & [-> _]%no_duplicate_columns_inv).
  apply bind_Ok in H as (r2 & [-> Hnd2]%no_duplicate_columns_inv & H).
  apply bind_Ok in H as (r3 & Hr3 & H).
  apply bind_Ok in H as (r4 & Hr4 & H).
  apply bind_Ok in H as (r5 & Hr5 & H).
  apply with_columns_2 in H as (year & v & Hyear & Hv & ->).
  apply bind_Ok in Hv as (tml & _ & Hv).
  apply bind_Ok in Hv as (wvr & _ & [= <-]).
  by exists r1, (prod_map tidy_name id <$> r1), r3, r4, r5, year, tml, wvr.
Qed.

Lemma Forall2_bind {A B C} (f : A → result B) (g : B → result C) l1 l2 l3 :
  Forall2 (λ x y, f x = Ok y) l1 l2 →
  Forall2 (λ y z, g y = Ok z) l2 l3 →
  Forall2 (λ x z, f x ≫= g = Ok z) l1 l3.
Proof.
  intros H. revert l3. induction H as [|x y l1 l2 Hx _ IH]; intros l3 H'.
  - inversion H'. constructor.
  - inversion H' as [|? z ? l3' Hz H'']; subst. constructor; [|by apply IH].
    by rewrite Hx.
Qed.

(** The rows of a shaped frame are the rows of the table, each taken
    through the steps of [shape]. *)
Lemma shape_rows L df df' :
  shape L df = Ok df' →
  ∃ c3 c4 c5,
    Forall2 (λ r r', shape_row L c3 c4 c5 r = Ok r') (rows df) (rows df').
Proof.
  unfold shape, cast_decimal. intros H.
  apply bind_Ok in H as (df1 & (_ & _ & H1)%each_row_inv & H).
  apply bind_Ok in H as (df2 & (_ & _ & H2)%each_row_inv & H).
  apply bind_Ok in H as (df3 & (_ & _ & H3)%each_row_inv & H).
  apply bind_Ok in H as (df4 & (_ & _ & H4)%each_row_inv & H).
  apply bind_Ok in H as (df5 & (_ & _ & H5)%each_row_inv & H).
  apply bind_Ok in H as (df6 & (_ & _ & H6)%each_row_inv & H).
  apply each_row_inv in H as (_ & _ & H7).
  exists (column "TML_Pct" df3), (column "WVR_Pct" df4),
    (column "CVCM_Pct" df5).
  pose proof (Forall2_bind _ _ _ _ _ H6 H7) as H67.
  pose proof (Forall2_bind _ _ _ _ _ H5 H67) as H57.
  pose proof (Forall2_bind _ _ _ _ _ H4 H57) as H47.
  pose proof (Forall2_bind _ _ _ _ _ H3 H47) as H37.
  pose proof (Forall2_bind _ _ _ _ _ H2 H37) as H27.
  exact (Forall2_bind _ _ _ _ _ H1 H27).
Qed.

Lemma tidy_name_no_space k : " "%char ∉ list_ascii_of_string (tidy_name k).
Proof.
  unfold tidy_name, chars. rewrite list_ascii_of_string_of_list_ascii.
  intros (c & Hc & _)%list_elem_of_fmap.
  destruct (Ascii.eqb c " ") eqn:E; [done|].
  subst c. by rewrite Ascii.eqb_refl in E.
Qed.

Lemma rename_columns mapping r r' :
  rename mapping r = Ok r' →
  columns r'
  = (λ k, foldl (λ k names, if String.eqb k names.1 then names.2 else k)
                k mapping) <$> columns r.
Proof.
  unfold rename.
  intros (r1 & Hr1 & [-> _]%no_duplicate_columns_inv)%bind_Ok.
  by apply rename_foldl_inv in Hr1 as [_ ->].
Qed.

Lemma rename_all_columns f r r' :
  rename_all f r = Ok r' →
  columns r' = f <$> columns r ∧ NoDup (f <$> columns r).
Proof.
  unfold rename_all. intros [-> Hnd]%no_duplicate_columns_inv.
  by rewrite columns_prod_map in *.
Qed.

Lemma derived_columns L r r' :
  with_columns
    [("Year", cast_year L);
     ("RML_Pct",
      λ r, tml ← col_dec "TML_Pct" r;
           wvr ← col_dec "WVR_Pct" r;
           Ok (of_dec (RML_Pct tml wvr)))] r = Ok r' →
  columns r'
  = if bool_decide ("RML_Pct" ∈ columns r) then columns r
    else columns r ++ ["RML_Pct"].
Proof.
  intros (year & v & Hyear & _ & ->)%with_columns_2.
  apply cast_year_inv in Hyear as [Hyear _].
  by rewrite columns_set, columns_set_present.
Qed.

(** The header of a shaped frame, and the columns of its rows. *)
Lemma shape_columns L df df' :
  shape L df = Ok df' →
  NoDup (header_spec <$> header df)
  ∧ header df'
    = (if bool_decide ("RML_Pct" ∈ header_spec <$> header df)
       then header_spec <$> header df
       else (header_spec <$> header df) ++ ["RML_Pct"])
  ∧ Forall (λ r', columns r' = header df') (rows df').
Proof.
  unfold shape, cast_decimal. intros H.
  apply bind_Ok in H as (df1 & (_ & (h1 & Hh1 & Hd1) & _)%each_row_inv & H).
  apply bind_Ok in H as (df2 & (_ & (h2 & Hh2 & Hd2) & _)%each_row_inv & H).
  apply bind_Ok in H as (df3 & (_ & (h3 & Hh3 & Hd3) & _)%each_row_inv & H).
  apply bind_Ok in H as (df4 & (_ & (h4 & Hh4 & Hd4) & _)%each_row_inv & H).
  apply bind_Ok in H as (df5 & (_ & (h5 & Hh5 & Hd5) & _)%each_row_inv & H).
  apply bind_Ok in H as (df6 & (_ & (h6 & Hh6 & Hd6) & _)%each_row_inv & H).
  apply each_row_inv in H as (Hwf & (h7 & Hh7 & Hd7) & H7).
  injection Hh1 as <-.
  rewrite columns_prod_map, list_fmap_id, columns_schema_row in Hd1.
  apply rename_columns in Hh2. rewrite columns_schema_row, Hd1 in Hh2.
  apply rename_all_columns in Hh3 as [Hh3 Hnd].
  rewrite columns_schema_row, Hd2, Hh2, <- list_fmap_compose in Hh3, Hnd.
  apply cast_cell_inv in Hh4 as (_ & _ & Hh4 & _).
  apply cast_cell_inv in Hh5 as (_ & _ & Hh5 & _).
  apply cast_cell_inv in Hh6 as (_ & _ & Hh6 & _).
  apply derived_columns in Hh7.
  rewrite columns_schema_row in Hh4, Hh5, Hh6, Hh7.
  assert (Hspec : header df6 = header_spec <$> header df).
  { rewrite Hd6, Hh6, Hd5, Hh5, Hd4, Hh4, Hd3, Hh3.
    apply list_fmap_ext. intros _ k _. apply header_spec_renames. }
  split_and!.
  - rewrite <- Hspec, Hd6, Hh6, Hd5, Hh5, Hd4, Hh4, Hd3, Hh3. exact Hnd.
  - by rewrite Hd7, Hh7, Hspec.
  - rewrite Forall_forall in Hwf.
    apply Forall2_Forall_r_ex in H7. eapply Forall_impl; [exact H7|].
    intros r' (r & Hin & Hr). cbn beta in Hr. apply derived_columns in Hr.
    by rewrite Hr, Hd7, Hh7, (Hwf r Hin).
Qed.

(** X12. The columns of a shaped frame are the scraped headers in their
    order, with the four renames and the tidying of names applied, followed
    by [RML_Pct] unless a scraped header already has this name.  No two
    columns have the same name, no name contains a space, and every row
    has these columns. *)
Theorem shaped_row_columns L df df' :
  shape L df = Ok df' →
  header df'
  = (if bool_decide ("RML_Pct" ∈ header_spec <$> header df)
     then header_spec <$> header df
     else (header_spec <$> header df) ++ ["RML_Pct"])
  ∧ NoDup (header df')
  ∧ Forall (λ name, " "%char ∉ list_ascii_of_string name) (header df')
  ∧ Forall (λ r', columns r' = header df') (rows df').
Proof.
  intros (Hnd & Hcols & Hrows)%shape_columns. rewrite Hcols in *.
  assert (Hsp : Forall (λ name, " "%char ∉ list_ascii_of_string name)
                       (header_spec <$> header df)).
  { apply Forall_fmap, Forall_forall. intros k _. apply tidy_name_no_space. }
  split; [done|]. case_bool_decide as Hin; [done|]. split_and!; [| |done].
  - apply NoDup_app. split_and!; [done| |apply NoDup_singleton].
    intros name Hname ->%list_elem_of_singleton. done.
  - apply Forall_app. split; [done|]. apply Forall_singleton.
    apply (bool_decide_unpack (_ ∉ _)). by vm_compute.
Qed.

Lemma shaped_row_columns_witness :
  header sample_shaped
  = (if bool_decide ("RML_Pct" ∈ header_spec <$> header sample_raw)
     then header_spec <$> header sample_raw
     else (header_spec <$> header sample_raw) ++ ["RML_Pct"])
  ∧ NoDup (header sample_shaped)
  ∧ Forall (λ name, " "%char ∉ list_ascii_of_string name)
           (header sample_shaped)
  ∧ Forall (λ r', columns r' = header sample_shaped) (rows sample_shaped).
Proof.
  apply (shaped_row_columns three_pages sample_raw sample_shaped).
  vm_compute. reflexivity.
Defined.

(** ** The shaped frame: its cells *)

Lemma strip_cell_trimmed c :
  match strip_cell c with
  | Str s => s ≠ "" ∧ chars strip_chars s = s
  | _ => True
  end.
Proof.
  destruct c as [|s|q|n]; try done. unfold strip_cell. cbn zeta.
  destruct (String.eqb (chars strip_chars s) "") eqn:E; [done|].
  apply String.eqb_neq in E. split; [done|].
  rewrite chars_chars. unfold chars, compose, strip_chars.
  by rewrite strip_idemp.
Qed.

(** X13. In every row of a shaped frame the three percentage columns and
    [RML_Pct] hold a decimal or null, [Year] holds an unsigned integer or
    null, and every cell that is still a string is not empty and has no
    white space at either end. *)
Theorem shaped_row_cells L df df' :
  shape L df = Ok df' →
  Forall
    (λ r',
       (∃ tml wvr cvcm rml,
          col_dec "TML_Pct" r' = Ok tml ∧ col_dec "WVR_Pct" r' = Ok wvr ∧
          col_dec "CVCM_Pct" r' = Ok cvcm ∧ col_dec "RML_Pct" r' = Ok rml)
       ∧ (get "Year" r' = Some Null ∨ ∃ n, get "Year" r' = Some (U16 n))
       ∧ (∀ name s, get name r' = Some (Str s) →
                    s ≠ "" ∧ chars strip_chars s = s))
    (rows df').
Proof.
  intros (c3 & c4 & c5 & Hrows)%shape_rows.
  apply Forall2_Forall_r_ex in Hrows. eapply Forall_impl; [exact Hrows|].
  clear Hrows. intros r' (r & _ & Hr). cbn beta in Hr. revert Hr.
  intros (r1 & r2 & r3 & r4 & r5 & year & tml & wvr & Hr1 & -> & Hnd
          & Hr3 & Hr4 & Hr5 & Hyear & ->)%shape_row_inv.
  set (P := λ c : cell, match c with
                        | Str s => s ≠ "" ∧ chars strip_chars s = s
                        | _ => True
                        end).
  apply rename_foldl_inv in Hr1 as [Hv1 _].
  apply cast_cell_inv in Hr3 as ([o3 Ho3] & _ & _ & HP3).
  apply cast_cell_inv in Hr4 as ([o4 Ho4] & Hg4 & _ & HP4).
  apply cast_cell_inv in Hr5 as ([o5 Ho5] & Hg5 & _ & HP5).
  apply cast_year_inv in Hyear as [_ Hyear].
  split_and!.
  - exists o3, o4, o5, (RML_Pct tml wvr).
    rewrite !(col_dec_set_ne "RML_Pct"), !(col_dec_set_ne "Year") by done.
    split_and!; [| |done|].
    + unfold col_dec, col in *. by rewrite Hg5, Hg4 by done.
    + unfold col_dec, col in *. by rewrite Hg5 by done.
    + unfold col_dec, col. rewrite get_set_eq. by destruct (RML_Pct tml wvr).
  - rewrite get_set_ne, get_set_eq by done.
    destruct Hyear as [->|[n ->]]; eauto.
  - intros name s Hget%get_elem_of.
    assert (HP : Forall P (set "RML_Pct" (of_dec (RML_Pct tml wvr))
                              (set "Year" year r5)).*2).
    { apply values_set; [by destruct (RML_Pct tml wvr)|].
      apply values_set; [by destruct Hyear as [->|[n ->]]|].
      apply HP5, HP4, HP3; try done.
      rewrite values_prod_map, list_fmap_id, Hv1, values_prod_map.
      apply Forall_fmap, Forall_forall. intros c _. apply strip_cell_trimmed. }
    rewrite Forall_forall in HP. apply (HP (Str s)).
    apply list_elem_of_fmap. by exists (name, Str s).
Qed.

Lemma shaped_row_cells_witness :
  Forall
    (λ r',
       (∃ tml wvr cvcm rml,
          col_dec "TML_Pct" r' = Ok tml ∧ col_dec "WVR_Pct" r' = Ok wvr ∧
          col_dec "CVCM_Pct" r' = Ok cvcm ∧ col_dec "RML_Pct" r' = Ok rml)
       ∧ (get "Year" r' = Some Null ∨ ∃ n, get "Year" r' = Some (U16 n))
       ∧ (∀ name s, get name r' = Some (Str s) →
                    s ≠ "" ∧ chars strip_chars s = s))
    (rows sample_shaped).
Proof.
  apply (shaped_row_cells three_pages sample_raw sample_shaped).
  vm_compute. reflexivity.
Defined.

(** ** A scraped table without one of the renamed headers *)

Lemma filter_ext_elem {A} (P Q : A → Prop)
    `{∀ x, Decision (P x), ∀ x, Decision (Q x)} (l : list A) :
  (∀ x, x ∈ l → P x ↔ Q x) → filter P l = filter Q l.
Proof.
  induction l as [|x l IH]; intros Hext; [done|].
  assert (filter P l = filter Q l) as Hl
    by (apply IH; intros y Hy; apply Hext; by right).
  destruct (decide (P x)) as [HP|HP].
  - rewrite !filter_cons_True, Hl; [done|by apply Hext; [left|]|done].
  - rewrite !filter_cons_False, Hl; [done| |done].
    intros HQ. apply HP, Hext; [left|done].
Qed.

(** [rename] fails on the first old name, in the order of the mapping,
    that is no column. *)
Lemma rename_first_missing mapping : ∀ r k,
  NoDup mapping.*1 →
  (∀ new, new ∈ mapping.*2 → new ∉ mapping.*1) →
  head (filter (λ k, k ∉ columns r) mapping.*1) = Some k →
  foldl (λ acc names, r ← acc; rename_one r names) (Ok r) mapping
  = Err (ColumnNotFoundError k).
Proof.
  induction mapping as [|[old new] mapping IH]; intros r k Hnd Hnew Hk; [done|].
  apply NoDup_cons in Hnd as [Hold Hnd]. cbn [foldl fmap list_fmap fst] in *.
  simpl mbind. unfold rename_one at 2. cbn [fst snd].
  destruct (decide (old ∈ columns r)) as [Hin|Hin].
  - rewrite bool_decide_eq_true_2 by done.
    rewrite filter_cons_False in Hk by tauto.
    apply IH; [done| |].
    + intros n Hn Hn'. apply (Hnew n); [by right|by right].
    + rewrite <- Hk. f_equal. apply filter_ext_elem. intros k' Hk'.
      rewrite columns_prod_map, list_elem_of_fmap.
      assert (k' ≠ old) by (by intros ->).
      assert (k' ≠ new).
      { intros ->. apply (Hnew new); [by left|by right]. }
      split; intros Hn Hc; apply Hn.
      * exists k'. split; [|done]. by apply String.eqb_neq in H as ->.
      * destruct Hc as (c & -> & Hc).
        destruct (String.eqb c old); [done|done].
  - rewrite bool_decide_eq_false_2 by done.
    rewrite filter_cons_True in Hk by done. injection Hk as <-.
    apply rename_foldl_Err.
Qed.

(** X14. When the header of the scraped table lacks one of [TML %],
    [WVR], [CVCM], [Mfr.], shaping fails and names the first of them, in
    this order, that is missing, whatever the rows are and also when there
    is no row. *)
Theorem shape_missing_header L df k :
  well_formed df = true →
  head (filter (λ k, k ∉ header df) ["TML %"; "WVR"; "CVCM"; "Mfr."]) = Some k →
  shape L df = Err (ColumnNotFoundError k).
Proof.
  intros Hwf Hk. unfold shape.
  rewrite (each_row_Ok _ (λ r, prod_map id strip_cell <$> r) df
             (prod_map id strip_cell <$> schema_row (header df)));
    [|done|done|by apply Forall_true].
  rewrite result_bind_Ok, columns_prod_map, list_fmap_id, columns_schema_row.
  rewrite (each_row_schema_Err _ _ (ColumnNotFoundError k)); [done| |].
  - apply well_formed_Forall, Forall_fmap. apply well_formed_Forall in Hwf.
    eapply Forall_impl; [exact Hwf|]. intros r Hr. simpl.
    by rewrite columns_prod_map, list_fmap_id.
  - cbn [header]. unfold rename.
    rewrite (rename_first_missing _ _ k); [done| | |].
    + apply (bool_decide_unpack (NoDup _)). by vm_compute.
    + intros new Hnew. revert new Hnew. apply Forall_forall.
      apply (bool_decide_unpack (Forall _ _)). by vm_compute.
    + by rewrite columns_schema_row.
Qed.

Lemma shape_missing_header_witness :
  shape three_pages sample_table_without_WVR = Err (ColumnNotFoundError "WVR").
Proof.
  apply (shape_missing_header three_pages sample_table_without_WVR "WVR").
  - vm_compute. reflexivity.
  - vm_compute. reflexivity.
Defined.

(** ** What a successful fetch tells *)

Lemma scrape_pages_Ok_inv L : ∀ fuel page_num df_list w l w',
  scrape_pages L fuel page_num df_list w = (Ok l, w') →
  ∃ dfs : list DataFrame,
    l = df_list ++ dfs
    ∧ page L <$> seq page_num (length dfs) = (λ df, Ok (Some df)) <$> dfs
    ∧ page L (page_num + length dfs) = Ok None
    ∧ w' = requested (seq page_num (S (length dfs))) w.
Proof.
  induction fuel as [|fuel IH]; intros p acc w l w'; [done|].
  rewrite scrape_pages_step. destruct (page L p) as [[df|]|e] eqn:Hp; [| |done].
  - intros (dfs & -> & Hpages & Hend & ->)%IH. exists (df :: dfs).
    rewrite <- (assoc_L (++)), requested_app. cbn [length seq fmap list_fmap].
    rewrite Hp. split_and!; [done| |by rewrite Nat.add_succ_r|done].
    f_equal. exact Hpages.
  - intros [= <- <-]. exists []. rewrite app_nil_r, Nat.add_0_r.
    by split_and!.
Qed.

(** X15. [fetch_all] succeeds only in the situation of a regular end:
    there are n frames, one at least, such that pages 1 to n yielded them,
    page n+1 gave the end-of-data signal, the result is the frame that
    [pl.concat] made of them in this order, and the pages requested are 1
    to n+1. *)
Theorem fetch_all_success_inv L fuel w d w' :
  fetch_all L fuel w = (Ok d, w') →
  ∃ dfs : list DataFrame,
    dfs ≠ []
    ∧ concat_vertical L dfs = Ok d
    ∧ page L <$> seq 1 (length dfs) = (λ df, Ok (Some df)) <$> dfs
    ∧ page L (S (length dfs)) = Ok None
    ∧ (length dfs < fuel)%nat
    ∧ w' = requested (seq 1 (S (length dfs))) w.
Proof.
  unfold fetch_all, mbind, io_bind, lift.
  destruct (scrape_pages L fuel 1 [] w) as [[l|e] w1] eqn:Hrun; [|done].
  intros Hd.
  destruct (scrape_pages_requests L fuel 1 [] w) as (k & Hk & Hw).
  rewrite Hrun in Hw. simpl in Hw.
  apply scrape_pages_Ok_inv in Hrun as (dfs & -> & Hpages & Hend & ->).
  exists dfs. destruct dfs as [|df dfs]; [done|].
  injection Hd as Hd <-.
  split_and!; [done..| |done].
  apply (f_equal requests) in Hw. unfold requested in Hw; simpl in Hw.
  apply app_inv_head in Hw. apply (f_equal length) in Hw.
  simpl in Hw. rewrite !length_seq in Hw. simpl. lia.
Qed.

Lemma fetch_all_success_inv_witness :
  ∃ dfs : list DataFrame,
    dfs ≠ []
    ∧ concat_vertical three_pages dfs
      = Ok {| header := header sample_shaped;
              rows := frames_of three_pages [1; 2; 3] ≫= rows |}
    ∧ page three_pages <$> seq 1 (length dfs) = (λ df, Ok (Some df)) <$> dfs
    ∧ page three_pages (S (length dfs)) = Ok None
    ∧ (length dfs < 4)%nat
    ∧ {| requests := [1; 2; 3; 4]; files := [] |}
      = requested (seq 1 (S (length dfs))) empty_world.
Proof.
  apply (fetch_all_success_inv three_pages 4 empty_world).
  vm_compute. reflexivity.
Defined.
